(** * ID card generator: the merge engine, the field model and the bulk import

    A shallow embedding of [src/App.tsx].  The React component keeps its data
    in [useState] cells; here they are the fields of one record, [State.t],
    and every handler of the component is a function on that record.

    Conventions of the embedding:
    - a JavaScript [number] is a binary64 float ([PrimFloat.float]); where
      a statement needs the number a float stands for, it is the real
      number [F2R] reads off its mantissa and exponent;
    - a JavaScript [string] is a [string] whose characters are the code
      units 0..255;
    - a [Person] ([{ id: string; [key: string]: string }]) is a plain
      object: its own properties are a finite map from keys to strings, the
      key ["id"] included, and like every object literal it inherits from
      [Object.prototype], so a read of a key it does not own can find a
      property of the prototype, and an assignment to ["__proto__"] goes to
      the prototype's setter ([JsObject]);
    - [Math.random().toString(36).substr(2, 9)] is the next element of a
      sequence [randomId] the session draws from, with the number of draws
      so far kept in the state;
    - the jsPDF document is the sequence of pages the calls on it build. *)

From Stdlib Require Import PrimFloat Ascii ZArith Reals Lra Floats.
From stdpp Require Import gmap strings list fin_maps pretty.

(** ** JavaScript values *)

Module Js.

(** [ToBoolean] on a number: [NaN], [+0] and [-0] are falsy. *)
Definition truthy_number (v : float) : bool :=
  negb (PrimFloat.is_nan v || PrimFloat.is_zero v).

(** [ToBoolean] on a string: only the empty string is falsy. *)
Definition truthy_string (s : string) : bool :=
  match s with
  | EmptyString => false
  | String _ _ => true
  end.

(** [ToBoolean] on [string | null] and on [string | undefined]. *)
Definition truthy (v : option string) : bool :=
  match v with
  | Some s => truthy_string s
  | None => false
  end.

(** [v || d] on numbers. *)
Definition or_number (v d : float) : float :=
  if truthy_number v then v else d.

(** [v || d] where [v : string | undefined] and [d : string]. *)
Definition or_string (v : option string) (d : string) : string :=
  match v with
  | Some s => if truthy_string s then s else d
  | None => d
  end.

(** The line feed, ["\n"]. *)
Definition LF : ascii := "010"%char.
Definition comma : ascii := ","%char.

(** White space and line terminators among the code units 0..255:
    TAB, LF, VT, FF, CR, SP and NBSP. *)
Definition is_white_space (c : ascii) : bool :=
  let n := nat_of_ascii c in
  ((9 <=? n) && (n <=? 13)) || (n =? 32) || (n =? 160).

Fixpoint trimStart (s : string) : string :=
  match s with
  | EmptyString => EmptyString
  | String c s' => if is_white_space c then trimStart s' else s
  end.

Definition trimEnd (s : string) : string :=
  String.rev (trimStart (String.rev s)).

(** [s.trim()]. *)
Definition trim (s : string) : string := trimEnd (trimStart s).

(** [s.split(sep)] for a one-character separator: the pieces between the
    occurrences of [sep], so always one piece more than there are
    occurrences; [''.split(sep)] is [['']]. *)
Fixpoint split (sep : ascii) (s : string) : list string :=
  match s with
  | EmptyString => [EmptyString]
  | String c s' =>
      if decide (c = sep) then EmptyString :: split sep s'
      else match split sep s' with
           | [] => [String c EmptyString]   (* a split is never empty *)
           | piece :: pieces => String c piece :: pieces
           end
  end.

(** [a.forEach(f)] where [f] updates a state. *)
Definition forEach {A St : Type} (f : A → St → St) (a : list A) (s : St) : St :=
  fold_left (λ s x, f x s) a s.

(** [a.forEach((x, index) => ...)]: the callback also gets the index. *)
Fixpoint forEach_from {A St : Type} (i : nat) (f : A → nat → St → St)
    (a : list A) (s : St) : St :=
  match a with
  | [] => s
  | x :: a' => forEach_from (S i) f a' (f x i s)
  end.

Definition forEachi {A St : Type} (f : A → nat → St → St)
    (a : list A) (s : St) : St :=
  forEach_from 0 f a s.

(** [a.some(p)]. *)
Definition some {A : Type} (p : A → bool) (a : list A) : bool := existsb p a.

End Js.

(** ** Types and interfaces *)

Inductive Align := AlignLeft | AlignCenter | AlignRight.
Inductive Side := Front | Back.

#[global] Instance Side_eq_dec : EqDecision Side.
Proof. solve_decision. Defined.

Module CardConfig.
Record t := mk {
  width : float;   (* in cm *)
  height : float;  (* in cm *)
  dpi : float
}.
End CardConfig.

Module Field.
Record t := mk {
  id : string;
  name : string;       (* the data key *)
  x : float;           (* mm *)
  y : float;           (* mm *)
  fontSize : float;    (* pt *)
  color : string;
  fontFamily : string;
  align : Align;
  side : Side
}.
End Field.

(** [Partial<Field>]: every key of [Field] may be present or absent. *)
Module PartialField.
Record t := mk {
  id : option string;
  name : option string;
  x : option float;
  y : option float;
  fontSize : option float;
  color : option string;
  fontFamily : option string;
  align : option Align;
  side : option Side
}.

Definition empty : t := mk None None None None None None None None None.
End PartialField.

(** [Person]: the own properties of the record of one attendee;
    [p !! "id"] is [p.id]. *)
Abbreviation Person := (gmap string string).

(** ** Plain objects

    Every record of the component is written as an object literal, so
    besides its own properties it has what all objects inherit from
    [Object.prototype]. *)

Module JsObject.

(** The property names of [Object.prototype]. *)
Definition prototype_keys : list string :=
  [ "constructor"; "__defineGetter__"; "__defineSetter__"; "hasOwnProperty";
    "__lookupGetter__"; "__lookupSetter__"; "isPrototypeOf";
    "propertyIsEnumerable"; "toString"; "valueOf"; "__proto__"; "toLocaleString" ].

(** What a property read can give: a string the record owns, or the value
    [Object.prototype] holds under a key, which is a function, or for
    ["__proto__"] the prototype itself; an inherited value is never a
    string and is always truthy. *)
Inductive value :=
| Str (s : string)
| Inherited (key : string).

(** [o[key]]: the own property if there is one, else the inherited one,
    else [undefined]. *)
Definition get (o : Person) (key : string) : option value :=
  match o !! key with
  | Some s => Some (Str s)
  | None => if decide (key ∈ prototype_keys) then Some (Inherited key) else None
  end.

(** [o[key] = v] for a string [v].  An own property is overwritten.  A
    key the object does not own is created, except ["__proto__"]: there
    the assignment calls the setter of [Object.prototype], which ignores a
    value that is neither an object nor [null]. *)
Definition set (key v : string) (o : Person) : Person :=
  match o !! key with
  | Some _ => <[key := v]> o
  | None => if decide (key = "__proto__") then o else <[key := v]> o
  end.

(** [v || d] where [v] is the result of a read and [d] a string. *)
Definition or_value (v : option value) (d : string) : value :=
  match v with
  | Some (Str s) => if Js.truthy_string s then Str s else Str d
  | Some (Inherited key) => Inherited key
  | None => Str d
  end.

End JsObject.

Coercion JsObject.Str : string >-> JsObject.value.

Module Templates.
Record t := mk {
  front : option string;
  back : option string
}.
End Templates.

(** ** Constants *)

Definition DEFAULT_CONFIG : CardConfig.t :=
  CardConfig.mk 14 9.5 96.

Definition SAMPLE_DATA : list Person :=
  [ <["ID Number" := "STF-001"]> (<["Role" := "Staff"]>
      (<["Full Name" := "Alex Johnson"]> {["id" := "1"]}));
    <["ID Number" := "SPK-204"]> (<["Role" := "Speaker"]>
      (<["Full Name" := "Sarah Connor"]> {["id" := "2"]}));
    <["ID Number" := "ATT-883"]> (<["Role" := "Attendee"]>
      (<["Full Name" := "Mike Chen"]> {["id" := "3"]})) ].

(** ** Helper functions *)

(* 2.54 and 25.4 denote the nearest binary64 values, as they do in the source. *)
#[local] Set Warnings "-inexact-float".

Definition cmToPx (cm dpi : float) : float := ((cm / 2.54) * dpi)%float.
Definition mmToPx (mm dpi : float) : float := ((mm / 25.4) * dpi)%float.
Definition pxToMm (px dpi : float) : float := ((px * 25.4) / dpi)%float.
#[local] Set Warnings "inexact-float".

(** ** The value of a binary64 number

    [Prim2SF] gives a float its sign, mantissa and exponent; a finite one
    stands for the real number [m * 2^e], up to its sign.  [F2R] is that
    number; it is used on finite floats only, and is [0] on the infinities
    and on [NaN].  [inbetween m l t] reads a rounding location: where the
    exact value [t] lies between the integers [m] and [m + 1]. *)

Definition bpow (e : Z) : R := powerRZ 2 e.

Definition SF2R (f : spec_float) : R :=
  match f with
  | S754_finite s m e => ((if s then -1 else 1) * IZR (Zpos m) * bpow e)%R
  | _ => 0%R
  end.

Definition F2R (f : float) : R := SF2R (Prim2SF f).

Definition inbetween (m : Z) (l : location) (t : R) : Prop :=
  match l with
  | loc_Exact => t = IZR m
  | loc_Inexact Lt => (IZR m < t < IZR m + / 2)%R
  | loc_Inexact Eq => t = (IZR m + / 2)%R
  | loc_Inexact Gt => (IZR m + / 2 < t < IZR m + 1)%R
  end.

(** A positive finite number, and a positive normal one: neither zero nor
    subnormal nor infinite, so the quotient or product that produced it
    neither underflowed nor overflowed. *)
Definition positive_finite (f : float) : Prop :=
  classify f = PNormal ∨ classify f = PSubn.

Definition positive_normal (f : float) : Prop := classify f = PNormal.

(** A positive normal number with exponent [e]: its mantissa has 53 bits. *)
Definition normal_at (f : float) (e : Z) : Prop :=
  ∃ m, Prim2SF f = S754_finite false m e ∧ (2 ^ 52 <= Z.pos m < 2 ^ 53)%Z.

(** ** State of the component *)

Module State.
Record t := mk {
  config : CardConfig.t;
  templates : Templates.t;
  fields : list Field.t;
  people : list Person;
  selectedFieldId : option string;
  activeSide : Side;
  draws : nat   (* how many ids the session has drawn so far *)
}.

Definition setConfig (c : CardConfig.t) (s : t) : t :=
  mk c (templates s) (fields s) (people s) (selectedFieldId s) (activeSide s) (draws s).
Definition setFields (fs : list Field.t) (s : t) : t :=
  mk (config s) (templates s) fs (people s) (selectedFieldId s) (activeSide s) (draws s).
Definition setPeople (ps : list Person) (s : t) : t :=
  mk (config s) (templates s) (fields s) ps (selectedFieldId s) (activeSide s) (draws s).
Definition setSelectedFieldId (sel : option string) (s : t) : t :=
  mk (config s) (templates s) (fields s) (people s) sel (activeSide s) (draws s).
Definition setActiveSide (a : Side) (s : t) : t :=
  mk (config s) (templates s) (fields s) (people s) (selectedFieldId s) a (draws s).
Definition setDraws (n : nat) (s : t) : t :=
  mk (config s) (templates s) (fields s) (people s) (selectedFieldId s) (activeSide s) n.
End State.

(** The values of the [useState] cells when the component mounts. *)
Definition initial_fields : list Field.t :=
  [ Field.mk "f1" "Full Name" 70 40 24 "#000000" "helvetica" AlignCenter Front;
    Field.mk "f2" "Role" 70 55 16 "#2563EB" "helvetica" AlignCenter Front ].

Definition initial_state : State.t :=
  State.mk DEFAULT_CONFIG (Templates.mk None None) initial_fields SAMPLE_DATA
    None Front 0.

(** ** Card configuration (the two inputs of the design tab) *)

(** [onChange] of the width input; [v] is [parseFloat(e.target.value)]. *)
Definition onChangeWidth (v : float) (s : State.t) : State.t :=
  let config := State.config s in
  State.setConfig
    (CardConfig.mk (Js.or_number v 0) (CardConfig.height config) (CardConfig.dpi config)) s.

(** [onChange] of the height input. *)
Definition onChangeHeight (v : float) (s : State.t) : State.t :=
  let config := State.config s in
  State.setConfig
    (CardConfig.mk (CardConfig.width config) (Js.or_number v 0) (CardConfig.dpi config)) s.

(** ** Design logic *)

(** [{ ...f, ...updates }]. *)
Definition spread (f : Field.t) (updates : PartialField.t) : Field.t :=
  Field.mk
    (default (Field.id f) (PartialField.id updates))
    (default (Field.name f) (PartialField.name updates))
    (default (Field.x f) (PartialField.x updates))
    (default (Field.y f) (PartialField.y updates))
    (default (Field.fontSize f) (PartialField.fontSize updates))
    (default (Field.color f) (PartialField.color updates))
    (default (Field.fontFamily f) (PartialField.fontFamily updates))
    (default (Field.align f) (PartialField.align updates))
    (default (Field.side f) (PartialField.side updates)).

Section Session.

(** [randomId n] is the value of [Math.random().toString(36).substr(2, 9)]
    at the [n]-th draw of the session. *)
Variable randomId : nat → string.

Definition addField (s : State.t) : State.t :=
  let config := State.config s in
  let newField :=
    Field.mk (randomId (State.draws s)) "New Field"
      (CardConfig.width config * 5)%float   (* center roughly (cm -> mm) *)
      (CardConfig.height config * 5)%float
      14 "#000000" "helvetica" AlignLeft (State.activeSide s) in
  State.setSelectedFieldId (Some (Field.id newField))
    (State.setFields (State.fields s ++ [newField])
      (State.setDraws (S (State.draws s)) s)).

Definition updateField (id : string) (updates : PartialField.t) (s : State.t) : State.t :=
  State.setFields
    (map (λ f, if decide (Field.id f = id) then spread f updates else f)
         (State.fields s)) s.

Definition removeField (id : string) (s : State.t) : State.t :=
  let s' := State.setFields
              (filter (λ f, Field.id f ≠ id) (State.fields s)) s in
  if decide (State.selectedFieldId s = Some id)
  then State.setSelectedFieldId None s'
  else s'.

(** ** Data logic *)

(** The body of [headers.forEach((header, index) => ...)]. *)
Definition assign_column (values : list string) (header : string) (index : nat)
    (person : Person) : Person :=
  if Js.truthy (values !! index)
  then JsObject.set header (default "" (values !! index)) person
  else person.

(** The body of the loop over the data lines: one record from one line. *)
Definition parse_line (headers : list string) (line : string) (n : nat) : Person :=
  let values := map Js.trim (Js.split Js.comma line) in
  let person : Person := {["id" := randomId n]} in
  Js.forEachi (assign_column values) headers person.

(** [for (let i = 1; i < lines.length; i++)], run on the lines from the
    second on; [n] counts the ids drawn. *)
Fixpoint parse_lines (headers : list string) (lines : list string) (n : nat)
    (newPeople : list Person) : list Person * nat :=
  match lines with
  | [] => (newPeople, n)
  | line :: lines' =>
      parse_lines headers lines' (S n) (newPeople ++ [parse_line headers line n])
  end.

Definition handleBulkUpload (text : string) (s : State.t) : State.t :=
  let lines := Js.split Js.LF (Js.trim text) in
  if length lines <? 2 then s
  else
    let headers := map Js.trim (Js.split Js.comma (default "" (head lines))) in
    let '(newPeople, n) := parse_lines headers (tail lines) (State.draws s) [] in
    State.setPeople newPeople (State.setDraws n s).

End Session.

(** ** The jsPDF document

    The part of jsPDF that [generatePDF] drives: a document is the pages
    finished so far, the page being drawn, and the current graphics state.
    Drawing calls append to the page being drawn; [addPage] finishes it
    and starts a blank one. *)

Module JsPDF.

Record run := mkRun {
  text : JsObject.value;
  xMm : float;
  yMm : float;
  align : Align;
  fontSize : float;
  color : string;
  fontFamily : string;
  fontStyle : string
}.

Inductive item :=
| Image (imageData format : string) (x y w h : float)
| Rect (x y w h : float) (style : string) (fill : float * float * float)
| Text (r : run).

Record page := mkPage {
  size : float * float;
  items : list item
}.

Record gstate := mkG {
  g_fill : float * float * float;
  g_fontSize : float;
  g_textColor : string;
  g_font : string * string
}.

Record doc := mkDoc {
  orientation : string;
  unit : string;
  finished : list page;
  current : page;
  graphics : gstate
}.

(** The pages of the document, in order. *)
Definition pages (d : doc) : list page := finished d ++ [current d].

(** The text runs of a page, in drawing order. *)
Definition runs (pg : page) : list run :=
  omap (λ it, match it with Text r => Some r | _ => None end) (items pg).

Definition default_graphics : gstate :=
  mkG (0, 0, 0)%float 16 "#000000" ("helvetica", "normal").

(** [new jsPDF({ orientation, unit, format })]: one blank page. *)
Definition new (orientation unit : string) (format : float * float) : doc :=
  mkDoc orientation unit [] (mkPage format []) default_graphics.

Definition with_graphics (g : gstate) (d : doc) : doc :=
  mkDoc (orientation d) (unit d) (finished d) (current d) g.

Definition draw (it : item) (d : doc) : doc :=
  mkDoc (orientation d) (unit d) (finished d)
    (mkPage (size (current d)) (items (current d) ++ [it])) (graphics d).

Definition addPage (format : float * float) (d : doc) : doc :=
  mkDoc (orientation d) (unit d) (finished d ++ [current d])
    (mkPage format []) (graphics d).

Definition addImage (imageData format : string) (x y w h : float) (d : doc) : doc :=
  draw (Image imageData format x y w h) d.

Definition setFillColor (r g b : float) (d : doc) : doc :=
  let gs := graphics d in
  with_graphics (mkG (r, g, b) (g_fontSize gs) (g_textColor gs) (g_font gs)) d.

Definition rect (x y w h : float) (style : string) (d : doc) : doc :=
  draw (Rect x y w h style (g_fill (graphics d))) d.

Definition setFontSize (sz : float) (d : doc) : doc :=
  let gs := graphics d in
  with_graphics (mkG (g_fill gs) sz (g_textColor gs) (g_font gs)) d.

Definition setTextColor (c : string) (d : doc) : doc :=
  let gs := graphics d in
  with_graphics (mkG (g_fill gs) (g_fontSize gs) c (g_font gs)) d.

Definition setFont (name style : string) (d : doc) : doc :=
  let gs := graphics d in
  with_graphics (mkG (g_fill gs) (g_fontSize gs) (g_textColor gs) (name, style)) d.

(** [doc.text(text, x, y, { align })], in the current font and colour. *)
Definition text_at (t : JsObject.value) (x y : float) (al : Align) (d : doc) : doc :=
  let gs := graphics d in
  draw (Text (mkRun t x y al (g_fontSize gs) (g_textColor gs)
                (g_font gs).1 (g_font gs).2)) d.

End JsPDF.

(** ** PDF generation *)

Section Merge.

Variable config : CardConfig.t.
Variable templates : Templates.t.
Variable fields : list Field.t.

Definition widthMm : float := (CardConfig.width config * 10)%float.
Definition heightMm : float := (CardConfig.height config * 10)%float.

(** [person[f.name] || f.name]. *)
Definition display_text (person : Person) (f : Field.t) : JsObject.value :=
  JsObject.or_value (JsObject.get person (Field.name f)) (Field.name f).

(** [fields.filter(f => f.side === side).forEach(f => { ... })]. *)
Definition draw_fields (side : Side) (person : Person) (doc : JsPDF.doc) : JsPDF.doc :=
  Js.forEach
    (λ f doc,
       let text := display_text person f in
       let doc := JsPDF.setFontSize (Field.fontSize f) doc in
       let doc := JsPDF.setTextColor (Field.color f) doc in
       let doc := JsPDF.setFont (Field.fontFamily f) "normal" doc in
       JsPDF.text_at text (Field.x f) (Field.y f) (Field.align f) doc)
    (filter (λ f, Field.side f = side) fields) doc.

(** The image of a side if there is one, else a white fill. *)
Definition draw_background (template : option string) (doc : JsPDF.doc) : JsPDF.doc :=
  if Js.truthy template then
    JsPDF.addImage (default "" template) "JPEG" 0 0 widthMm heightMm doc
  else
    let doc := JsPDF.setFillColor 255 255 255 doc in
    JsPDF.rect 0 0 widthMm heightMm "F" doc.

(** The body of the loop over [people], at index [i]. *)
Definition merge_person (i : nat) (person : Person) (doc : JsPDF.doc) : JsPDF.doc :=
  (* Front side *)
  let doc := if 0 <? i then JsPDF.addPage (widthMm, heightMm) doc else doc in
  let doc := draw_background (Templates.front templates) doc in
  let doc := draw_fields Front person doc in
  (* Back side (only if template exists or fields exist) *)
  let hasBackFields := Js.some (λ f, bool_decide (Field.side f = Back)) fields in
  if Js.truthy (Templates.back templates) || hasBackFields then
    let doc := JsPDF.addPage (widthMm, heightMm) doc in
    let doc := draw_background (Templates.back templates) doc in
    draw_fields Back person doc
  else doc.

(** [for (let i = 0; i < people.length; i++)], from index [i] on. *)
Fixpoint merge_from (i : nat) (people : list Person) (doc : JsPDF.doc) : JsPDF.doc :=
  match people with
  | [] => doc
  | person :: people' => merge_from (S i) people' (merge_person i person doc)
  end.

End Merge.

(** [generatePDF]: the document, and the name it is saved under. *)
Definition generatePDF (s : State.t) : string * JsPDF.doc :=
  let config := State.config s in
  let doc :=
    JsPDF.new
      (if (CardConfig.height config <? CardConfig.width config)%float then "l" else "p")
      "mm"
      ((CardConfig.width config * 10)%float, (CardConfig.height config * 10)%float) in
  let doc := merge_from config (State.templates s) (State.fields s) 0 (State.people s) doc in
  ("event-id-cards.pdf", doc).

(** ** The pages a merge run is expected to produce

    What one attendee contributes to the document, written as data: a front
    page, then a back page when the design has back content.  The theorems
    below relate the calls [generatePDF] makes to these pages. *)

Section MergeView.

Variable config : CardConfig.t.
Variable templates : Templates.t.
Variable fields : list Field.t.

Definition run_of (person : Person) (f : Field.t) : JsPDF.run :=
  JsPDF.mkRun (display_text person f) (Field.x f) (Field.y f) (Field.align f)
    (Field.fontSize f) (Field.color f) (Field.fontFamily f) "normal".

Definition background_item (template : option string) : JsPDF.item :=
  if Js.truthy template then
    JsPDF.Image (default "" template) "JPEG" 0 0 (widthMm config) (heightMm config)
  else
    JsPDF.Rect 0 0 (widthMm config) (heightMm config) "F" (255, 255, 255)%float.

Definition side_fields (side : Side) : list Field.t :=
  filter (λ f, Field.side f = side) fields.

Definition side_items (side : Side) (template : option string) (person : Person)
    : list JsPDF.item :=
  background_item template :: map (λ f, JsPDF.Text (run_of person f)) (side_fields side).

Definition side_page (side : Side) (template : option string) (person : Person)
    : JsPDF.page :=
  JsPDF.mkPage (widthMm config, heightMm config) (side_items side template person).

(** Back content: a back image, or a field on the back side. *)
Definition has_back : bool :=
  Js.truthy (Templates.back templates)
  || Js.some (λ f, bool_decide (Field.side f = Back)) fields.

Definition pages_per_person : nat := if has_back then 2 else 1.

Definition person_pages (person : Person) : list JsPDF.page :=
  side_page Front (Templates.front templates) person
  :: (if has_back then [side_page Back (Templates.back templates) person] else []).

Definition template_of (side : Side) : option string :=
  match side with
  | Front => Templates.front templates
  | Back => Templates.back templates
  end.

(** Where the page of a side sits among the pages of one attendee. *)
Definition side_offset (side : Side) : nat :=
  match side with
  | Front => 0
  | Back => 1
  end.

End MergeView.

(** The text rule of the merge: the value the record owns under the
    field's name when that is non-empty; the name itself when the owned
    value is empty, or when the record owns none and the name is not a
    property of [Object.prototype]; and the inherited value when the record
    owns none and the name is such a property. *)
Definition resolves (person : Person) (f : Field.t) (r : JsPDF.run) : Prop :=
  (∀ v, person !! Field.name f = Some v → v ≠ "" → JsPDF.text r = v)
  ∧ (person !! Field.name f = Some "" → JsPDF.text r = Field.name f)
  ∧ (person !! Field.name f = None → Field.name f ∉ JsObject.prototype_keys →
     JsPDF.text r = Field.name f)
  ∧ (person !! Field.name f = None → Field.name f ∈ JsObject.prototype_keys →
     JsPDF.text r = JsObject.Inherited (Field.name f)).

(** A run sits where its field is, in the field's own millimetres. *)
Definition placed_at (f : Field.t) (r : JsPDF.run) : Prop :=
  JsPDF.xMm r = Field.x f ∧ JsPDF.yMm r = Field.y f.

(** ** Histories of the component *)

(** The card-configuration updates: an edit of the width input or of the
    height input, each with the number [parseFloat] read.  Nothing in the
    component updates [dpi]. *)
Inductive config_step : State.t → State.t → Prop :=
| step_width (v : float) (s : State.t) : config_step s (onChangeWidth v s)
| step_height (v : float) (s : State.t) : config_step s (onChangeHeight v s).

Definition config_reachable (s : State.t) : Prop := rtc config_step initial_state s.

(** [0 < width], [0 < height] and [0 < dpi]. *)
Definition positive_spec (c : CardConfig.t) : bool :=
  ((0 <? CardConfig.width c) && (0 <? CardConfig.height c)
   && (0 <? CardConfig.dpi c))%float.

(** The operations of the field placement model. *)
Inductive FieldOp :=
| AddField
| UpdateField (id : string) (updates : PartialField.t)
| RemoveField (id : string).

Definition run_op (randomId : nat → string) (op : FieldOp) (s : State.t) : State.t :=
  match op with
  | AddField => addField randomId s
  | UpdateField id updates => updateField id updates s
  | RemoveField id => removeField id s
  end.

Definition run_ops (randomId : nat → string) (ops : list FieldOp) (s : State.t) : State.t :=
  fold_left (λ s op, run_op randomId op s) ops s.

(** The selection is null or names a field of the current list. *)
Definition selection_ok (s : State.t) : Prop :=
  match State.selectedFieldId s with
  | None => True
  | Some id => ∃ f, f ∈ State.fields s ∧ Field.id f = id
  end.

(** An operation that leaves the ids of the fields it touches as they are:
    an update whose changes carry no [id] key, or carry the same id. *)
Definition keeps_id (op : FieldOp) : Prop :=
  match op with
  | UpdateField id updates =>
      PartialField.id updates = None ∨ PartialField.id updates = Some id
  | _ => True
  end.

(** ** The bulk import, as the specification words it *)

(** How often a character occurs in a string. *)
Fixpoint occurrences (c : ascii) (s : string) : nat :=
  match s with
  | EmptyString => 0
  | String c' s' => (if decide (c' = c) then 1 else 0) + occurrences c s'
  end.

(** The trimmed cells of one comma-separated line. *)
Definition cells (line : string) : list string :=
  map Js.trim (Js.split Js.comma line).

(** Keys zipped positionally against values, the columns whose value is
    empty skipped, and assigned to [base] from left to right. *)
Definition zip_record (base : Person) (headers values : list string) : Person :=
  foldl (λ person hv, JsObject.set hv.1 hv.2 person) base
    (filter (λ hv, hv.2 ≠ "") (zip headers values)).

(** One record per data line, the [k]-th one starting from the [k]-th id
    drawn. *)
Definition import_records (randomId : nat → string) (n : nat) (lines : list string)
    : list Person :=
  imap (λ k line,
          zip_record {["id" := randomId (n + k)]}
            (cells (default "" (head lines))) (cells line))
       (tail lines).

(** Column [j] is the one that decides the id of a row: it is named
    ["id"], its cell [v] is non-empty, and every later column named ["id"]
    has an empty cell or none in this row. *)
Definition id_column (headers values : list string) (j : nat) (v : string) : Prop :=
  headers !! j = Some "id" ∧ values !! j = Some v ∧ v ≠ ""
  ∧ ∀ (j' : nat) (w : string),
      j < j' → headers !! j' = Some "id" → values !! j' = Some w → w = "".

(** The ["id"] key of each record of a table. *)
Definition ids (people : list Person) : list (option string) :=
  map (λ person : Person, person !! "id") people.

(** ** The rest of the component

    The handlers the design, data and print tabs wire to their widgets.
    A handler that belongs to a widget which is only rendered in some states
    (the property panel, a field on the canvas) leaves the state alone when
    the widget is not there. *)

(** [reader.onload] in [handleFileUpload]:
    [setTemplates(prev => ({ ...prev, [side]: result }))]. *)
Definition onTemplateLoad (side : Side) (result : string) (s : State.t) : State.t :=
  let prev := State.templates s in
  let templates :=
    match side with
    | Front => Templates.mk (Some result) (Templates.back prev)
    | Back => Templates.mk (Templates.front prev) (Some result)
    end in
  State.mk (State.config s) templates (State.fields s) (State.people s)
    (State.selectedFieldId s) (State.activeSide s) (State.draws s).

(** [fields.find((f) => f.id === selectedFieldId)]. *)
Definition selectedField (s : State.t) : option Field.t :=
  match State.selectedFieldId s with
  | Some sel => List.find (λ f, bool_decide (Field.id f = sel)) (State.fields s)
  | None => None
  end.

(** The fields drawn on the canvas: [fields.filter(f => f.side === activeSide)]. *)
Definition renderedFields (s : State.t) : list Field.t :=
  filter (λ f, Field.side f = State.activeSide s) (State.fields s).

Module DragState.
Record t := mk {
  id : string;
  startX : float;
  startY : float;
  initX : float;
  initY : float
}.
End DragState.

(** The design tab: the cells of the component and its own [dragState]. *)
Module Design.
Record t := mk {
  app : State.t;
  dragState : option DragState.t
}.
End Design.

(** The changes the property panel and the drag send to [updateField]. *)
Definition changes_name (value : string) : PartialField.t :=
  PartialField.mk None (Some value) None None None None None None None.
Definition changes_fontSize (v : float) : PartialField.t :=
  PartialField.mk None None None None (Some v) None None None None.
Definition changes_align (a : Align) : PartialField.t :=
  PartialField.mk None None None None None None None (Some a) None.
Definition changes_color (c : string) : PartialField.t :=
  PartialField.mk None None None None None (Some c) None None None.
Definition changes_position (x y : float) : PartialField.t :=
  PartialField.mk None None (Some x) (Some y) None None None None None.

Section DesignTab.

Variable randomId : nat → string.

(** [Math.round]. *)
Variable Math_round : float → float.

Definition handleMouseDown (clientX clientY : float) (id : string)
    (currentX currentY : float) (d : Design.t) : Design.t :=
  Design.mk (State.setSelectedFieldId (Some id) (Design.app d))
    (Some (DragState.mk id clientX clientY currentX currentY)).

(** [canvas] is [canvasRef.current.clientWidth], or nothing when the ref
    is not attached. *)
Definition handleMouseMove (clientX clientY : float) (canvas : option float)
    (d : Design.t) : Design.t :=
  match Design.dragState d, canvas with
  | Some dragState, Some clientWidth =>
      let config := State.config (Design.app d) in
      let pixelScale := (clientWidth / (CardConfig.width config * 10))%float in
      let deltaX := ((clientX - DragState.startX dragState) / pixelScale)%float in
      let deltaY := ((clientY - DragState.startY dragState) / pixelScale)%float in
      Design.mk
        (updateField (DragState.id dragState)
           (changes_position
              (Math_round (DragState.initX dragState + deltaX)%float)
              (Math_round (DragState.initY dragState + deltaY)%float))
           (Design.app d))
        (Design.dragState d)
  | _, _ => d
  end.

Definition handleMouseUp (d : Design.t) : Design.t :=
  Design.mk (Design.app d) None.

(** What the user can do on the design tab.  [MouseDownField i] is a press
    on the [i]-th field drawn on the canvas; the four edits and the removal
    are the widgets of the property panel, which act on [selectedField];
    [EditFontSize v] carries [parseInt(e.target.value)]. *)
Inductive DesignEvent :=
| ClickAddField
| MouseDownField (i : nat) (clientX clientY : float)
| MouseMove (clientX clientY : float) (canvas : option float)
| MouseUp
| EditName (value : string)
| EditFontSize (v : float)
| EditAlign (a : Align)
| EditColor (c : string)
| ClickRemove
| ClickSide (side : Side)
| EditWidth (v : float)
| EditHeight (v : float)
| TemplateLoaded (side : Side) (result : string).

Definition on_selected (k : Field.t → State.t → State.t) (d : Design.t) : Design.t :=
  match selectedField (Design.app d) with
  | Some f => Design.mk (k f (Design.app d)) (Design.dragState d)
  | None => d
  end.

Definition on_app (k : State.t → State.t) (d : Design.t) : Design.t :=
  Design.mk (k (Design.app d)) (Design.dragState d).

Definition design_handle (ev : DesignEvent) (d : Design.t) : Design.t :=
  match ev with
  | ClickAddField => on_app (addField randomId) d
  | MouseDownField i clientX clientY =>
      match renderedFields (Design.app d) !! i with
      | Some field =>
          handleMouseDown clientX clientY (Field.id field) (Field.x field) (Field.y field) d
      | None => d
      end
  | MouseMove clientX clientY canvas => handleMouseMove clientX clientY canvas d
  | MouseUp => handleMouseUp d
  | EditName value => on_selected (λ f, updateField (Field.id f) (changes_name value)) d
  | EditFontSize v => on_selected (λ f, updateField (Field.id f) (changes_fontSize v)) d
  | EditAlign a => on_selected (λ f, updateField (Field.id f) (changes_align a)) d
  | EditColor c => on_selected (λ f, updateField (Field.id f) (changes_color c)) d
  | ClickRemove => on_selected (λ f, removeField (Field.id f)) d
  | ClickSide side => on_app (State.setActiveSide side) d
  | EditWidth v => on_app (onChangeWidth v) d
  | EditHeight v => on_app (onChangeHeight v) d
  | TemplateLoaded side result => on_app (onTemplateLoad side result) d
  end.

Definition design_run (evs : list DesignEvent) (d : Design.t) : Design.t :=
  fold_left (λ d ev, design_handle ev d) evs d.

End DesignTab.

(** The ids of the fields, in list order. *)
Definition field_ids (s : State.t) : list string := map Field.id (State.fields s).

(** The data tab: the cells of the component and its own three. *)
Module Data.
Record t := mk {
  app : State.t;
  csvText : string;
  showImport : bool;
  newPerson : Person
}.
End Data.

(** [Array.from(new Set(a))]: a [Set] keeps each value once, in the order
    of first insertion. *)
Definition set_add (acc : list string) (x : string) : list string :=
  if decide (x ∈ acc) then acc else acc ++ [x].

Definition array_from_set (a : list string) : list string :=
  foldl set_add [] a.

Definition requiredFields (fields : list Field.t) : list string :=
  array_from_set (map Field.name fields).

(** [onChange] of a form input: [setNewPerson({...newPerson, [field]: value})]. *)
Definition onChangeNewPerson (field value : string) (d : Data.t) : Data.t :=
  Data.mk (Data.app d) (Data.csvText d) (Data.showImport d)
    (<[field := value]> (Data.newPerson d)).

Definition handleAddPerson (randomId : nat → string) (d : Data.t) : Data.t :=
  let s := Data.app d in
  let person : Person := <["id" := randomId (State.draws s)]> (Data.newPerson d) in
  Data.mk (State.setPeople (State.people s ++ [person]) (State.setDraws (S (State.draws s)) s))
    (Data.csvText d) (Data.showImport d) ∅.

Definition deletePerson (id : string) (s : State.t) : State.t :=
  State.setPeople (filter (λ p : Person, p !! "id" ≠ Some id) (State.people s)) s.

(** The button [Clear All]. *)
Definition clearAll (s : State.t) : State.t := State.setPeople [] s.

(** The button [Process Data]: [onBulkUpload(csvText); setShowImport(false)]. *)
Definition processData (randomId : nat → string) (d : Data.t) : Data.t :=
  Data.mk (handleBulkUpload randomId (Data.csvText d) (Data.app d))
    (Data.csvText d) false (Data.newPerson d).

(** The print tab: the [Sides] line and the guard of the download button. *)
Definition sides_label (s : State.t) : string :=
  if Js.truthy (Templates.back (State.templates s))
     || Js.some (λ f, bool_decide (Field.side f = Back)) (State.fields s)
  then "Double Sided" else "Single Sided".

Definition download_disabled (loading : bool) (s : State.t) : bool :=
  loading || (length (State.people s) =? 0).

(** A click on the download button: nothing when it is disabled, else
    [generatePDF]. *)
Definition clickDownload (loading : bool) (s : State.t) : option (string * JsPDF.doc) :=
  if download_disabled loading s then None else Some (generatePDF s).

(** Column [j] decides the value of [key] in a row: it is named [key], its
    cell [v] is non-empty, and no later column named [key] has a non-empty
    cell in this row. *)
Definition key_column (key : string) (headers values : list string) (j : nat)
    (v : string) : Prop :=
  headers !! j = Some key ∧ values !! j = Some v ∧ v ≠ ""
  ∧ ∀ (j' : nat) (w : string),
      j < j' → headers !! j' = Some key → values !! j' = Some w → w = "".

(** The characters of a string, and a list without its leading white
    space. *)
Definition chars (s : string) : list ascii := String.list_ascii_of_string s.

Fixpoint drop_white (l : list ascii) : list ascii :=
  match l with
  | [] => []
  | c :: l' => if Js.is_white_space c then drop_white l' else l
  end.

(** [pieces.join(sep)]. *)
Fixpoint join (sep : ascii) (pieces : list string) : string :=
  match pieces with
  | [] => ""
  | [piece] => piece
  | piece :: pieces' => piece +:+ String sep (join sep pieces')
  end.

(** The header row and the data rows of an import text. *)
Definition import_lines (text : string) : list string :=
  Js.split Js.LF (Js.trim text).
Definition import_headers (text : string) : list string :=
  cells (default "" (head (import_lines text))).
Definition import_rows (text : string) : list string :=
  tail (import_lines text).

(** The field ids are pairwise distinct, and no id the session has yet to
    draw is in use. *)
Definition ids_fresh (randomId : nat → string) (s : State.t) : Prop :=
  NoDup (field_ids s) ∧ ∀ k : nat, State.draws s ≤ k → randomId k ∉ field_ids s.

(** Two fields agree on everything but their position. *)
Definition same_but_position (f f' : Field.t) : Prop :=
  Field.id f' = Field.id f ∧ Field.name f' = Field.name f
  ∧ Field.fontSize f' = Field.fontSize f ∧ Field.color f' = Field.color f
  ∧ Field.fontFamily f' = Field.fontFamily f ∧ Field.align f' = Field.align f
  ∧ Field.side f' = Field.side f.

(** The pages of the [i]-th attendee in a document that gives [k] pages to
    each. *)
Definition attendee_pages (k i : nat) (pages : list JsPDF.page) : list JsPDF.page :=
  take k (drop (k * i) pages).

(** A run carries the style of its field. *)
Definition styled_as (f : Field.t) (r : JsPDF.run) : Prop :=
  JsPDF.fontSize r = Field.fontSize f ∧ JsPDF.color r = Field.color f
  ∧ JsPDF.fontFamily r = Field.fontFamily f ∧ JsPDF.fontStyle r = "normal"
  ∧ JsPDF.align r = Field.align f.

(** ** Example inputs *)

Definition nl : string := String Js.LF "".

(** A sequence of ids with no repetition: r0, r1, r2, ... *)
Definition fresh_ids (n : nat) : string := "r" +:+ pretty n.

(** A design with one field on each side, and a table of one attendee whose
    record has a name but no role. *)
Definition example_back_field : Field.t :=
  Field.mk "f2" "Role" 70 55 16 "#2563EB" "helvetica" AlignCenter Back.

Definition example_person : Person :=
  <["Full Name" := "Ada Lovelace"]> {["id" := "1"]}.

Definition example_state : State.t :=
  State.mk DEFAULT_CONFIG (Templates.mk None None)
    [ Field.mk "f1" "Full Name" 70 40 24 "#000000" "helvetica" AlignCenter Front;
      example_back_field ]
    [ example_person ] None Front 0.

(** A design whose only field is named like a property of
    [Object.prototype], and a table of one attendee who has an id and
    nothing else. *)
Definition inherited_field : Field.t :=
  Field.mk "f1" "toString" 70 40 24 "#000000" "helvetica" AlignCenter Front.

Definition inherited_person : Person := {["id" := "1"]}.

Definition inherited_state : State.t :=
  State.mk DEFAULT_CONFIG (Templates.mk None None) [inherited_field]
    [inherited_person] None Front 0.

(** The import of the specification's example, one with a header only,
    one with an ["id"] column, and one with two of them. *)
Definition example_csv : string :=
  "Name,Role" +:+ nl +:+ "Ada,Speaker" +:+ nl +:+ "Linus,Staff".

Definition example_csv_header_only : string :=
  "Name,Role" +:+ nl.

Definition example_csv_id : string :=
  "id,Name" +:+ nl +:+ "7,Ada" +:+ nl +:+ "7,Linus".

Definition example_csv_two_ids : string :=
  "id,id" +:+ nl +:+ "1,2".

Definition example_csv_proto : string :=
  "__proto__,Name" +:+ nl +:+ "x,Ada".

(** Changes that rename a field, and changes that rewrite its id. *)
Definition example_rename : PartialField.t :=
  PartialField.mk None (Some "Title") None None None None None None None.

Definition example_reid : PartialField.t :=
  PartialField.mk (Some "x9") None None None None None None None None.

(** * Theorems *)

(** ** The unit conversions

    The three helpers run on binary64 numbers, so they can be evaluated,
    and the evaluation shows why the specification asks for the round trip
    only up to a tolerance: it is not the identity bit for bit.  The
    tolerance itself is bounded further down. *)

#[local] Set Warnings "-inexact-float".

Example mmToPx_one_inch : mmToPx 25.4 96 = 96%float.
Proof. reflexivity. Qed.

Example cmToPx_one_inch : cmToPx 2.54 96 = 96%float.
Proof. reflexivity. Qed.

Example round_trip_70_96 :
  (pxToMm (mmToPx 70 96) 96 =? 70)%float = false
  ∧ (abs (pxToMm (mmToPx 70 96) 96 - 70) <? 1e-13)%float = true.
Proof. split; reflexivity. Qed.

#[local] Set Warnings "inexact-float".

(** *** The round trip through pixels

    Every division and multiplication rounds its exact result to the
    nearest binary64 number.  The lemmas below derive, from the
    specification of the float operations ([SpecFloat]), the usual bound on
    that rounding: when the result is a normal number it is within a
    relative error of [2^-53] of the exact value.  They also show when the
    result is normal: whenever the exponents leave room. *)

Section Binary64Facts.

Local Open Scope R_scope.

Lemma bpow_pos e : 0 < bpow e.
Proof. apply powerRZ_lt; lra. Qed.

Lemma bpow_add a b : bpow (a + b) = bpow a * bpow b.
Proof. apply powerRZ_add; lra. Qed.

Lemma bpow_IZR n : (0 <= n)%Z → bpow n = IZR (2 ^ n).
Proof.
  intros Hn. destruct n as [|p|p]; [done| |lia].
  unfold bpow. by rewrite <- Zpower_pos_powerRZ.
Qed.

Lemma IZR_pow2_pos n : (0 <= n)%Z → 0 < IZR (2 ^ n).
Proof. intros Hn. rewrite <- bpow_IZR by done. apply bpow_pos. Qed.

Lemma digits2_size p : digits2_pos p = Pos.size p.
Proof. induction p; simpl; congruence. Qed.

Lemma Zdigits2_log2 m : (0 < m)%Z → Zdigits2 m = (Z.log2 m + 1)%Z.
Proof.
  destruct m as [|p|p]; [lia| |lia]. intros _. simpl.
  rewrite digits2_size. destruct p; simpl; lia.
Qed.

Lemma loc_of_record_of_loc m l :
  loc_of_shr_record (shr_record_of_loc m l) = l ∧ shr_m (shr_record_of_loc m l) = m.
Proof. by destruct l as [|[]]. Qed.

Lemma shr_1_spec r t :
  (0 <= shr_m r)%Z → inbetween (shr_m r) (loc_of_shr_record r) t →
  inbetween (shr_m (shr_1 r)) (loc_of_shr_record (shr_1 r)) (t / 2)
  ∧ shr_m (shr_1 r) = (shr_m r / 2)%Z.
Proof.
  destruct r as [m r s]. simpl. intros Hm.
  destruct m as [|[p|p|]|p]; [| | | |lia].
  - destruct r, s; simpl; intros H; (split; [lra|done]).
  - assert (E : IZR (Z.pos p~1) = 2 * IZR (Z.pos p) + 1)
      by (rewrite <- mult_IZR, <- plus_IZR; done).
    destruct r, s; simpl; rewrite E; intros H;
      (split; [lra|rewrite Pos2Z.inj_xI; Z.to_euclidean_division_equations; lia]).
  - assert (E : IZR (Z.pos p~0) = 2 * IZR (Z.pos p))
      by (rewrite <- mult_IZR; done).
    destruct r, s; simpl; rewrite E; intros H;
      (split; [lra|rewrite Pos2Z.inj_xO; Z.to_euclidean_division_equations; lia]).
  - destruct r, s; simpl; intros H; (split; [lra|done]).
Qed.

Lemma pow2_xO p : (2 ^ Z.pos p~0 = 2 ^ Z.pos p * 2 ^ Z.pos p)%Z.
Proof. rewrite <- Z.pow_add_r by lia. f_equal. lia. Qed.

Lemma pow2_xI p : (2 ^ Z.pos p~1 = 2 * 2 ^ Z.pos p * 2 ^ Z.pos p)%Z.
Proof.
  rewrite <- Z.mul_assoc, <- pow2_xO, <- (Z.pow_succ_r 2 (Z.pos p~0)) by lia.
  done.
Qed.

Lemma iter_shr_1_spec p : ∀ r t,
  (0 <= shr_m r)%Z → inbetween (shr_m r) (loc_of_shr_record r) t →
  let r' := SpecFloat.iter_pos shr_1 p r in
  inbetween (shr_m r') (loc_of_shr_record r') (t / IZR (2 ^ Z.pos p))
  ∧ shr_m r' = (shr_m r / 2 ^ Z.pos p)%Z.
Proof.
  assert (Hstep : ∀ r t, (0 <= shr_m r)%Z →
    inbetween (shr_m r) (loc_of_shr_record r) t →
    (0 <= shr_m (shr_1 r))%Z).
  { intros r t Hm Hin. destruct (shr_1_spec r t Hm Hin) as [_ ->].
    by apply Z.div_pos. }
  induction p as [p IH|p IH|]; intros r t Hm Hin; simpl.
  - destruct (shr_1_spec r t Hm Hin) as [H1 E1].
    assert (Hm1 := Hstep r t Hm Hin).
    destruct (IH _ _ Hm1 H1) as [H2 E2].
    assert (Hm2 : (0 <= shr_m (SpecFloat.iter_pos shr_1 p (shr_1 r)))%Z).
    { rewrite E2. apply Z.div_pos; lia. }
    destruct (IH _ _ Hm2 H2) as [H3 E3].
    assert (Hp := IZR_pow2_pos (Z.pos p) ltac:(lia)).
    assert (Hz : (0 < 2 ^ Z.pos p)%Z) by (apply Z.pow_pos_nonneg; lia).
    rewrite pow2_xI.
    split.
    + rewrite !mult_IZR.
      replace (t / (2 * IZR (2 ^ Z.pos p) * IZR (2 ^ Z.pos p)))
        with (t / 2 / IZR (2 ^ Z.pos p) / IZR (2 ^ Z.pos p)) by (field; lra).
      done.
    + rewrite E3, E2, E1. rewrite !Z.div_div by lia. f_equal. ring.
  - destruct (IH _ _ Hm Hin) as [H2 E2].
    assert (Hm2 : (0 <= shr_m (SpecFloat.iter_pos shr_1 p r))%Z).
    { rewrite E2. apply Z.div_pos; lia. }
    destruct (IH _ _ Hm2 H2) as [H3 E3].
    assert (Hp := IZR_pow2_pos (Z.pos p) ltac:(lia)).
    assert (Hz : (0 < 2 ^ Z.pos p)%Z) by (apply Z.pow_pos_nonneg; lia).
    rewrite pow2_xO.
    split.
    + rewrite !mult_IZR.
      replace (t / (IZR (2 ^ Z.pos p) * IZR (2 ^ Z.pos p)))
        with (t / IZR (2 ^ Z.pos p) / IZR (2 ^ Z.pos p)) by (field; lra).
      done.
    + rewrite E3, E2. rewrite !Z.div_div by lia. done.
  - destruct (shr_1_spec r t Hm Hin) as [H1 E1]. by split.
Qed.

Lemma shr_spec r e n t r' e' :
  (0 <= shr_m r)%Z → inbetween (shr_m r) (loc_of_shr_record r) t →
  shr r e n = (r', e') →
  e' = (e + Z.max 0 n)%Z
  ∧ inbetween (shr_m r') (loc_of_shr_record r') (t / IZR (2 ^ Z.max 0 n))
  ∧ shr_m r' = (shr_m r / 2 ^ Z.max 0 n)%Z.
Proof.
  intros Hm Hin. destruct n as [|p|p]; simpl; intros [= <- <-].
  - rewrite Z.add_0_r, Z.div_1_r, Rdiv_1_r. done.
  - destruct (iter_shr_1_spec p r t Hm Hin) as [H1 H2]. done.
  - rewrite Z.add_0_r, Z.div_1_r, Rdiv_1_r. done.
Qed.

Lemma round_nearest_even_spec m l t :
  inbetween m l t →
  (round_nearest_even m l = m ∨ round_nearest_even m l = (m + 1)%Z)
  ∧ Rabs (IZR (round_nearest_even m l) - t) <= / 2.
Proof.
  destruct l as [|[]]; simpl; intros H.
  - split; [by left|]. rewrite H, Rminus_diag, Rabs_R0. lra.
  - destruct (Z.even m).
    + split; [by left|]. rewrite H. apply Rabs_le. lra.
    + split; [by right|]. rewrite H, plus_IZR. apply Rabs_le. lra.
  - split; [by left|]. apply Rabs_le. lra.
  - split; [by right|]. rewrite plus_IZR. apply Rabs_le. lra.
Qed.

Lemma log2_div_pow2 m n :
  (0 <= n)%Z → (0 < m / 2 ^ n)%Z → Z.log2 (m / 2 ^ n) = (Z.log2 m - n)%Z.
Proof.
  intros Hn Hpos. rewrite <- Z.shiftr_div_pow2 in * by done.
  assert (Hm : (0 < m)%Z).
  { destruct (Z.lt_trichotomy m 0) as [Hneg|[->|H]]; [|by rewrite Z.shiftr_0_l in Hpos|done].
    assert (H := proj2 (Z.shiftr_neg m n) Hneg). lia. }
  rewrite Z.log2_shiftr by done.
  destruct (Z.lt_ge_cases (Z.log2 m) n) as [Hlt|Hge]; [|lia].
  rewrite Z.shiftr_eq_0 in Hpos by lia. lia.
Qed.

Lemma fexp_succ z : (fexp prec emax (z + 1) <= fexp prec emax z + 1)%Z.
Proof. unfold fexp, emin, prec, emax. lia. Qed.

(** The second alignment of [binary_round_aux] loses no bit: the rounded
    mantissa either fits, or is a power of two. *)
Lemma second_shift_exact m1 m2 e1 :
  (0 < m1)%Z → (fexp prec emax (Zdigits2 m1 + e1) <= e1)%Z →
  m2 = m1 ∨ m2 = (m1 + 1)%Z →
  let n2 := Z.max 0 (fexp prec emax (Zdigits2 m2 + e1) - e1) in
  m2 = (m2 / 2 ^ n2 * 2 ^ n2)%Z.
Proof.
  intros Hm1 Hfexp Hm2 n2.
  assert (Hzero : n2 = 0%Z → m2 = (m2 / 2 ^ n2 * 2 ^ n2)%Z).
  { intros ->. rewrite Z.pow_0_r, Z.div_1_r. lia. }
  destruct Hm2 as [->| ->]; [apply Hzero; lia|].
  rewrite Zdigits2_log2 in Hfexp by done.
  subst n2. rewrite Zdigits2_log2 in * by lia.
  destruct (Z.log2_succ_or m1) as [Hs|Hs]; unfold Z.succ in Hs;
    [|rewrite Hs in *; apply Hzero; lia].
  assert (Hle := fexp_succ (Z.log2 m1 + 1 + e1)).
  rewrite Hs in *.
  replace (Z.log2 m1 + 1 + 1 + e1)%Z with (Z.log2 m1 + 1 + e1 + 1)%Z in * by lia.
  destruct (Z.max_spec 0 (fexp prec emax (Z.log2 m1 + 1 + e1 + 1) - e1))
    as [[_ E]|[_ E]]; [|rewrite E in *; by apply Hzero].
  set (n2 := Z.max 0 _) in *.
  assert (n2 = 0 ∨ n2 = 1)%Z as [->| ->] by lia; [by apply Hzero|].
  destruct (Z.log2_eq_succ_is_pow2 m1 Hs) as [b Hb]. unfold Z.succ in Hb.
  assert (1 <= b)%Z.
  { destruct (Z.lt_ge_cases b 1) as [Hlt|]; [|done].
    assert (2 ^ b <= 2 ^ 0)%Z; [|simpl in *; lia].
    destruct (Z.neg_nonneg_cases b); [rewrite Z.pow_neg_r; lia|].
    apply Z.pow_le_mono_r; lia. }
  rewrite Hb. replace b with (Z.succ (b - 1)) by lia.
  rewrite Z.pow_succ_r by lia. rewrite Z.pow_1_r.
  Z.to_euclidean_division_equations. lia.
Qed.

Lemma half_ulp : bpow (-53) * IZR (2 ^ 52) = / 2.
Proof.
  rewrite <- bpow_IZR, <- bpow_add by lia. simpl. unfold bpow. simpl. lra.
Qed.

(** The standard model of rounding, for results in the normal range: the
    float returned for the exact value [t * 2^ex] is within a relative
    error of [2^-53] of it. *)
Lemma binary_round_aux_error sx mx ex lx t s m e :
  (0 <= mx)%Z → inbetween mx lx t →
  binary_round_aux prec emax sx mx ex lx = S754_finite s m e →
  (2 ^ 52 <= Z.pos m)%Z →
  s = sx
  ∧ Rabs (IZR (Z.pos m) * bpow e - t * bpow ex)
    <= bpow (-53) * (IZR (Z.pos m) * bpow e).
Proof.
  intros Hmx Hin Hres Hnorm.
  unfold binary_round_aux, shr_fexp in Hres.
  remember (fexp prec emax (Zdigits2 mx + ex) - ex)%Z as n1 eqn:En1.
  destruct (shr (shr_record_of_loc mx lx) ex n1) as [r1 e1] eqn:E1.
  remember (round_nearest_even (shr_m r1) (loc_of_shr_record r1)) as m2 eqn:Em2.
  remember (fexp prec emax (Zdigits2 m2 + e1) - e1)%Z as n2 eqn:En2.
  destruct (shr (shr_record_of_loc m2 loc_Exact) e1 n2) as [r2 e2] eqn:E2.
  destruct (shr_m r2) as [|m'|] eqn:Em; try done.
  destruct (e2 <=? emax - prec)%Z; try done.
  injection Hres as <- <- <-. split; [done|].
  destruct (loc_of_record_of_loc mx lx) as [Hl Hm].
  apply (shr_spec _ _ _ t) in E1; [|by rewrite Hm|by rewrite Hl, Hm].
  rewrite Hm in E1. destruct E1 as (He1 & Hin1 & Hm1).
  destruct (round_nearest_even_spec _ _ _ Hin1) as [Hm2 Herr].
  rewrite <- Em2 in Hm2, Herr. clear Em2.
  remember (Z.max 0 n1) as N1 eqn:EN1. remember (Z.max 0 n2) as N2 eqn:EN2.
  assert (HN1 : (0 <= N1)%Z) by lia. assert (HN2 : (0 <= N2)%Z) by lia.
  assert (Hp1 : (0 < 2 ^ N1)%Z) by (by apply Z.pow_pos_nonneg).
  assert (Hp2 : (0 < 2 ^ N2)%Z) by (by apply Z.pow_pos_nonneg).
  assert (Hm1nn : (0 <= shr_m r1)%Z) by (rewrite Hm1; by apply Z.div_pos).
  apply (shr_spec _ _ _ (IZR m2)) in E2; [|simpl; lia|done].
  simpl in E2. rewrite <- EN2 in E2. destruct E2 as (He2 & _ & Hm3).
  rewrite Em in Hm3.
  assert (Hm1pos : (0 < shr_m r1)%Z).
  { destruct (Z.eq_dec (shr_m r1) 0%Z) as [E0|]; [|lia].
    assert (m2 <= 1)%Z by lia. assert (0 <= m2)%Z by lia.
    assert (Z.pos m' <= m2)%Z; [|simpl in *; lia].
    rewrite Hm3. apply Z.div_le_upper_bound; [done|]. nia. }
  assert (Hcanon : (fexp prec emax (Zdigits2 (shr_m r1) + e1) <= e1)%Z).
  { rewrite Zdigits2_log2 by done.
    assert (Hmxpos : (0 < mx)%Z).
    { destruct (Z.eq_dec mx 0%Z) as [->|]; [|lia]. rewrite Z.div_0_l in Hm1; lia. }
    rewrite Zdigits2_log2 in En1 by done.
    rewrite Hm1 in Hm1pos |- *. rewrite log2_div_pow2 by done.
    unfold fexp, emin, prec, emax in *. lia. }
  assert (Hexact := second_shift_exact _ _ _ Hm1pos Hcanon Hm2). simpl in Hexact.
  rewrite <- En2, <- EN2, <- Hm3 in Hexact.
  (* the real values *)
  assert (HR1 := IZR_pow2_pos N1 HN1). assert (HR2 := IZR_pow2_pos N2 HN2).
  assert (Hb1 : bpow e1 = bpow ex * IZR (2 ^ N1)) by (by rewrite He1, bpow_add, (bpow_IZR N1)).
  assert (Hb2 : bpow e2 = bpow e1 * IZR (2 ^ N2)) by (by rewrite He2, bpow_add, (bpow_IZR N2)).
  assert (HR : IZR (Z.pos m') * bpow e2 = IZR m2 * bpow e1).
  { rewrite Hb2, Hexact, mult_IZR. ring. }
  assert (HT : t * bpow ex = t / IZR (2 ^ N1) * bpow e1).
  { rewrite Hb1. field. lra. }
  rewrite HR, HT, <- Rmult_minus_distr_r, Rabs_mult.
  assert (Hbp := bpow_pos e1). rewrite (Rabs_pos_eq (bpow e1)) by lra.
  assert (Hm2ge : IZR (2 ^ 52) <= IZR m2).
  { apply IZR_le. etrans; [exact Hnorm|]. rewrite Hexact. nia. }
  assert (Hu := half_ulp). assert (0 < bpow (-53)) by apply bpow_pos.
  assert (/ 2 <= bpow (-53) * IZR m2) by nra.
  rewrite <- Rmult_assoc. apply Rmult_le_compat_r; lra.
Qed.

Lemma new_location_spec q m2 r :
  (0 < m2)%Z → (0 <= r < m2)%Z →
  inbetween q (new_location m2 r) (IZR q + IZR r / IZR m2).
Proof.
  intros Hm2 Hr.
  assert (HM : 0 < IZR m2) by (by apply IZR_lt).
  set (rho := IZR r / IZR m2).
  assert (Hrho : rho * IZR m2 = IZR r) by (unfold rho; field; lra).
  assert (Hlt : ∀ a b : Z, (a < b)%Z → IZR a < IZR b) by apply IZR_lt.
  assert (H2 : IZR (2 * r) = 2 * IZR r) by (by rewrite mult_IZR).
  unfold new_location.
  destruct (Z.even m2) eqn:Ev; unfold new_location_even, new_location_odd;
    (destruct (Z.eqb_spec r 0) as [E0|Hr0];
      [assert (rho = 0) by (unfold rho; rewrite E0; lra); simpl; lra|]);
    assert (0 < IZR r) by (apply (Hlt 0%Z); lia);
    assert (IZR r < IZR m2) by (apply Hlt; lia).
  - destruct (Z.compare_spec (2 * r) m2) as [E|L|G]; simpl.
    + apply (f_equal IZR) in E. rewrite H2 in E. nra.
    + apply Hlt in L. rewrite H2 in L. nra.
    + apply Hlt in G. rewrite H2 in G. nra.
  - assert (Hodd : (2 * r ≠ m2)%Z).
    { intros <-. by rewrite Z.even_mul in Ev. }
    destruct (Z.compare_spec (2 * r + 1) m2) as [E|L|G]; simpl.
    + assert (L : (2 * r < m2)%Z) by lia. apply Hlt in L. rewrite H2 in L. nra.
    + assert (L' : (2 * r < m2)%Z) by lia. apply Hlt in L'. rewrite H2 in L'. nra.
    + assert (G' : (m2 < 2 * r)%Z) by lia. apply Hlt in G'. rewrite H2 in G'. nra.
Qed.

Lemma SFdiv_core_binary_spec mx ex my ey q e' l :
  SFdiv_core_binary prec emax (Z.pos mx) ex (Z.pos my) ey = (q, e', l) →
  ∃ t, (0 <= q)%Z ∧ inbetween q l t
    ∧ t * bpow e' = IZR (Z.pos mx) * bpow ex / (IZR (Z.pos my) * bpow ey).
Proof.
  unfold SFdiv_core_binary.
  remember (Z.min _ _) as e0 eqn:Ee0.
  remember (ex - ey - e0)%Z as sh eqn:Esh.
  assert (Hsh : (0 <= sh)%Z) by lia.
  remember (match sh with Z.pos _ => Z.shiftl (Z.pos mx) sh | 0%Z => Z.pos mx | Z.neg _ => 0%Z end)
    as m' eqn:Em'.
  assert (Hm' : m' = (Z.pos mx * 2 ^ sh)%Z).
  { destruct sh as [|p|p]; [lia| |lia]. by rewrite Em', Z.shiftl_mul_pow2. }
  clear Em'.
  assert (Hdm := Z_div_mod m' (Z.pos my) ltac:(lia)).
  destruct (Z.div_eucl m' (Z.pos my)) as [q0 r0]. destruct Hdm as [Hdm Hr0].
  intros [= <- <- <-].
  exists (IZR q0 + IZR r0 / IZR (Z.pos my)).
  assert (Hp : (0 < 2 ^ sh)%Z) by (by apply Z.pow_pos_nonneg).
  split; [nia|]. split; [by apply new_location_spec|].
  assert (HM : 0 < IZR (Z.pos my)) by (by apply IZR_lt).
  assert (Hb : bpow ex = bpow ey * bpow e0 * IZR (2 ^ sh)).
  { rewrite <- (bpow_IZR sh), <- !bpow_add by done. f_equal. lia. }
  assert (Hq : IZR q0 * IZR (Z.pos my) + IZR r0 = IZR (Z.pos mx) * IZR (2 ^ sh)).
  { rewrite <- !mult_IZR, <- plus_IZR. f_equal. lia. }
  assert (Hbe := bpow_pos ey). assert (Hb0 := bpow_pos e0).
  rewrite Hb.
  replace (IZR r0) with (IZR (Z.pos mx) * IZR (2 ^ sh) - IZR q0 * IZR (Z.pos my)) by lra.
  field. lra.
Qed.

Lemma SFmul_error mx ex my ey s m e :
  SFmul prec emax (S754_finite false mx ex) (S754_finite false my ey)
    = S754_finite s m e →
  (2 ^ 52 <= Z.pos m)%Z →
  s = false
  ∧ Rabs (IZR (Z.pos m) * bpow e
          - IZR (Z.pos mx) * bpow ex * (IZR (Z.pos my) * bpow ey))
    <= bpow (-53) * (IZR (Z.pos m) * bpow e).
Proof.
  simpl. intros Hres Hnorm.
  destruct (binary_round_aux_error false (Z.pos (mx * my)) (ex + ey) loc_Exact
              (IZR (Z.pos (mx * my))) s m e
              (Pos2Z.is_nonneg _) eq_refl Hres Hnorm) as [-> H].
  split; [done|].
  rewrite Pos2Z.inj_mul, mult_IZR, bpow_add in H.
  by replace (IZR (Z.pos mx) * bpow ex * (IZR (Z.pos my) * bpow ey))
    with (IZR (Z.pos mx) * IZR (Z.pos my) * (bpow ex * bpow ey)) by ring.
Qed.

Lemma SFdiv_error mx ex my ey s m e :
  SFdiv prec emax (S754_finite false mx ex) (S754_finite false my ey)
    = S754_finite s m e →
  (2 ^ 52 <= Z.pos m)%Z →
  s = false
  ∧ Rabs (IZR (Z.pos m) * bpow e
          - IZR (Z.pos mx) * bpow ex / (IZR (Z.pos my) * bpow ey))
    <= bpow (-53) * (IZR (Z.pos m) * bpow e).
Proof.
  simpl. intros Hres Hnorm.
  destruct (SFdiv_core_binary prec emax (Z.pos mx) ex (Z.pos my) ey)
    as [[q e'] l] eqn:Ecore.
  destruct (SFdiv_core_binary_spec _ _ _ _ _ _ _ Ecore) as (t & Hq & Hin & Ht).
  destruct (binary_round_aux_error _ _ _ _ t _ _ _ Hq Hin Hres Hnorm) as [-> H].
  split; [done|]. by rewrite <- Ht.
Qed.

Lemma positive_normal_inv f :
  positive_normal f →
  ∃ m e, Prim2SF f = S754_finite false m e ∧ (2 ^ 52 <= Z.pos m)%Z.
Proof.
  unfold positive_normal. rewrite classify_spec. unfold SF64classify, SFclassify.
  destruct (Prim2SF f) as [[]|[]| |[] m e]; try done;
    destruct (Z.eqb_spec (Z.pos (digits2_pos m)) prec) as [E|]; try done.
  intros _. exists m, e. split; [done|].
  rewrite digits2_size in E.
  assert (H := Z.log2_spec (Z.pos m) ltac:(lia)).
  replace (Z.log2 (Z.pos m)) with 52%Z in H; [lia|].
  unfold prec in E. destruct m; simpl in *; lia.
Qed.

Lemma positive_finite_inv f :
  positive_finite f → ∃ m e, Prim2SF f = S754_finite false m e.
Proof.
  unfold positive_finite. rewrite classify_spec. unfold SF64classify, SFclassify.
  destruct (Prim2SF f) as [[]|[]| |[] m e]; try (intros []; done); [|by eauto].
  destruct (Z.pos (digits2_pos m) =? prec)%Z; intros []; done.
Qed.

Lemma positive_normal_finite f : positive_normal f → positive_finite f.
Proof. by left. Qed.

Lemma F2R_pos f : positive_finite f → 0 < F2R f.
Proof.
  intros (m & e & E)%positive_finite_inv. unfold F2R. rewrite E. simpl.
  assert (0 < IZR (Z.pos m)) by (by apply IZR_lt). assert (H' := bpow_pos e). nra.
Qed.

Lemma mul_error x y :
  positive_finite x → positive_finite y → positive_normal (x * y)%float →
  Rabs (F2R (x * y)%float - F2R x * F2R y) <= bpow (-53) * F2R (x * y)%float.
Proof.
  intros (mx & ex & Ex)%positive_finite_inv (my & ey & Ey)%positive_finite_inv
    (m & e & E & Hm)%positive_normal_inv.
  unfold F2R. rewrite E, Ex, Ey.
  assert (E' := mul_spec x y). rewrite E, Ex, Ey in E'. symmetry in E'.
  destruct (SFmul_error _ _ _ _ _ _ _ E' Hm) as [_ H]. simpl.
  by rewrite !Rmult_1_l.
Qed.

Lemma div_error x y :
  positive_finite x → positive_finite y → positive_normal (x / y)%float →
  Rabs (F2R (x / y)%float - F2R x / F2R y) <= bpow (-53) * F2R (x / y)%float.
Proof.
  intros (mx & ex & Ex)%positive_finite_inv (my & ey & Ey)%positive_finite_inv
    (m & e & E & Hm)%positive_normal_inv.
  unfold F2R. rewrite E, Ex, Ey.
  assert (E' := div_spec x y). rewrite E, Ex, Ey in E'. symmetry in E'.
  destruct (SFdiv_error _ _ _ _ _ _ _ E' Hm) as [_ H]. simpl.
  by rewrite !Rmult_1_l.
Qed.

Lemma Rabs_le_inv a b : Rabs a <= b → - b <= a <= b.
Proof. unfold Rabs. destruct (Rcase_abs a); lra. Qed.

(** Four roundings, each within [u] of the exact result, leave the round
    trip within [5 u] of where it started. *)
Lemma round_trip_real u X C D A B E T :
  0 < u <= / 32 → 0 < X → 0 < C → 0 < D → 0 < A → 0 < B → 0 < E → 0 < T →
  Rabs (A - X / C) <= u * A → Rabs (B - A * D) <= u * B →
  Rabs (E - B * C) <= u * E → Rabs (T - E / D) <= u * T →
  Rabs (T - X) <= 5 * u * X.
Proof.
  intros Hu HX HC HD HA HB HE HT H1 H2 H3 H4.
  apply Rabs_le_inv in H1, H2, H3, H4.
  set (t1 := X / C / A). set (t2 := A * D / B).
  set (t3 := B * C / E). set (t4 := E / D / T).
  assert (B1 : 1 - u <= t1 <= 1 + u).
  { assert (E1 : X / C = t1 * A) by (unfold t1; field; lra). rewrite E1 in H1.
    split; nra. }
  assert (B2 : 1 - u <= t2 <= 1 + u).
  { assert (E2 : A * D = t2 * B) by (unfold t2; field; lra). rewrite E2 in H2.
    split; nra. }
  assert (B3 : 1 - u <= t3 <= 1 + u).
  { assert (E3 : B * C = t3 * E) by (unfold t3; field; lra). rewrite E3 in H3.
    split; nra. }
  assert (B4 : 1 - u <= t4 <= 1 + u).
  { assert (E4 : E / D = t4 * T) by (unfold t4; field; lra). rewrite E4 in H4.
    split; nra. }
  assert (EX : X = t1 * t2 * (t3 * t4) * T) by (unfold t1, t2, t3, t4; field; lra).
  clearbody t1 t2 t3 t4.
  set (p := t1 * t2) in *. set (q := t3 * t4) in *.
  assert (Bp : 1 - 2 * u <= p <= 1 + 2 * u + u * u) by (unfold p; split; nra).
  assert (Bq : 1 - 2 * u <= q <= 1 + 2 * u + u * u) by (unfold q; split; nra).
  clearbody p q.
  assert (Bpq : 1 - 4 * u <= p * q <= 1 + 4 * u + 7 * (u * u)).
  { split; [nra|].
    assert (p * q <= (1 + 2 * u + u * u) * (1 + 2 * u + u * u)) by nra.
    assert (u * u <= u / 32) by nra. nra. }
  set (pq := p * q) in *. clearbody pq.
  apply Rabs_le. rewrite EX. split; nra.
Qed.

Lemma inbetween_total m l : ∃ t, inbetween m l t.
Proof.
  destruct l as [|[]]; simpl.
  - by exists (IZR m).
  - by exists (IZR m + / 2).
  - exists (IZR m + / 4). lra.
  - exists (IZR m + 3 / 4). lra.
Qed.

Lemma log2_53_bits m : (2 ^ 52 <= m < 2 ^ 53)%Z → Z.log2 m = 52%Z.
Proof. intros H. by apply Z.log2_unique. Qed.

(** In the normal range rounding neither underflows nor overflows: a
    mantissa of at least 53 bits is cut down to exactly 53. *)
Lemma binary_round_aux_normal sx mx ex lx :
  (2 ^ 52 <= mx)%Z → (-1074 <= ex)%Z → (ex + (Z.log2 mx - 52) + 1 <= 971)%Z →
  ∃ m e, binary_round_aux prec emax sx mx ex lx = S754_finite sx m e
    ∧ (2 ^ 52 <= Z.pos m < 2 ^ 53)%Z
    ∧ (ex + (Z.log2 mx - 52) <= e <= ex + (Z.log2 mx - 52) + 1)%Z.
Proof.
  intros Hmx Hex Hmax.
  destruct (inbetween_total mx lx) as [t Hin].
  assert (H52 : (0 < 2 ^ 52)%Z) by done.
  assert (Hpos : (0 < mx)%Z) by lia.
  assert (HL : (52 <= Z.log2 mx)%Z).
  { rewrite <- (Z.log2_pow2 52) by done. by apply Z.log2_le_mono. }
  assert (Hspec := Z.log2_spec mx Hpos).
  unfold binary_round_aux, shr_fexp.
  remember (fexp prec emax (Zdigits2 mx + ex) - ex)%Z as n1 eqn:En1.
  destruct (shr (shr_record_of_loc mx lx) ex n1) as [r1 e1] eqn:E1.
  remember (round_nearest_even (shr_m r1) (loc_of_shr_record r1)) as m2 eqn:Em2.
  remember (fexp prec emax (Zdigits2 m2 + e1) - e1)%Z as n2 eqn:En2.
  destruct (shr (shr_record_of_loc m2 loc_Exact) e1 n2) as [r2 e2] eqn:E2.
  destruct (loc_of_record_of_loc mx lx) as [Hl Hm].
  apply (shr_spec _ _ _ t) in E1; [|by rewrite Hm; lia|by rewrite Hl, Hm].
  rewrite Hm in E1. destruct E1 as (He1 & Hin1 & Hm1).
  destruct (round_nearest_even_spec _ _ _ Hin1) as [Hm2 _].
  rewrite <- Em2 in Hm2. clear Em2.
  rewrite Zdigits2_log2 in En1 by done.
  assert (Hn1 : n1 = (Z.log2 mx - 52)%Z).
  { rewrite En1. unfold fexp, emin, prec, emax. lia. }
  rewrite Hn1, Z.max_r in He1, Hin1, Hm1 by lia.
  assert (Hm1pos : (0 < shr_m r1)%Z).
  { rewrite Hm1. apply Z.div_str_pos. split; [apply Z.pow_pos_nonneg; lia|].
    etrans; [|exact (proj1 Hspec)]. apply Z.pow_le_mono_r; lia. }
  assert (Hlog1 : Z.log2 (shr_m r1) = 52%Z).
  { rewrite Hm1 in Hm1pos |- *. rewrite log2_div_pow2 by (done || lia). lia. }
  assert (Hb1 := Z.log2_spec _ Hm1pos). rewrite Hlog1 in Hb1.
  change (Z.succ 52) with 53%Z in Hb1.
  assert (Hcase : (m2 < 2 ^ 53 ∧ n2 = 0 ∨ m2 = 2 ^ 53 ∧ n2 = 1)%Z).
  { destruct (Z.eq_dec m2 (2 ^ 53)%Z) as [E|Hne]; [right|left].
    - split; [done|]. rewrite En2, E. unfold fexp, emin, prec, emax. simpl. lia.
    - assert (Hb2 : (2 ^ 52 <= m2 < 2 ^ 53)%Z) by lia. split; [lia|].
      rewrite En2, Zdigits2_log2, (log2_53_bits m2 Hb2) by lia.
      unfold fexp, emin, prec, emax. lia. }
  apply (shr_spec _ _ _ (IZR m2)) in E2; [|simpl; lia|done].
  simpl in E2. destruct E2 as (He2 & _ & Hm3).
  assert (Hres : (2 ^ 52 <= shr_m r2 < 2 ^ 53 ∧ e1 <= e2 <= e1 + 1)%Z).
  { destruct Hcase as [[Hlt ->]|[-> ->]].
    - simpl in *. rewrite Z.div_1_r in Hm3. lia.
    - rewrite Hm3. change (Z.max 0 1) with 1%Z in *.
      change (2 ^ 53 `div` 2 ^ 1)%Z with (2 ^ 52)%Z. lia. }
  destruct (shr_m r2) as [|m'|m'] eqn:Em; [lia| |lia].
  destruct (Z.leb_spec e2 (emax - prec)) as [_|Hover];
    [|unfold emax, prec in Hover; lia].
  exists m', e2. split; [done|]. split; [lia|lia].
Qed.

Lemma digits_53_bits m : (2 ^ 52 <= Z.pos m < 2 ^ 53)%Z → Zdigits2 (Z.pos m) = 53%Z.
Proof. intros H. rewrite Zdigits2_log2, (log2_53_bits _ H) by done. done. Qed.

Lemma SFmul_normal mx ex my ey :
  (2 ^ 52 <= Z.pos mx < 2 ^ 53)%Z → (2 ^ 52 <= Z.pos my < 2 ^ 53)%Z →
  (-1074 <= ex + ey)%Z → (ex + ey + 54 <= 971)%Z →
  ∃ m e, SFmul prec emax (S754_finite false mx ex) (S754_finite false my ey)
         = S754_finite false m e
    ∧ (2 ^ 52 <= Z.pos m < 2 ^ 53)%Z
    ∧ (ex + ey + 52 <= e <= ex + ey + 54)%Z.
Proof.
  intros Hx Hy Hlo Hhi. simpl.
  assert (Hp : (2 ^ 104 <= Z.pos (mx * my) < 2 ^ 106)%Z).
  { rewrite Pos2Z.inj_mul. split.
    - change (2 ^ 104)%Z with (2 ^ 52 * 2 ^ 52)%Z. apply Z.mul_le_mono_nonneg; lia.
    - change (2 ^ 106)%Z with (2 ^ 53 * 2 ^ 53)%Z. apply Z.mul_lt_mono_nonneg; lia. }
  assert (HL : (104 <= Z.log2 (Z.pos (mx * my)) < 106)%Z).
  { split.
    - rewrite <- (Z.log2_pow2 104) by done. apply Z.log2_le_mono. lia.
    - apply Z.log2_lt_pow2; lia. }
  destruct (binary_round_aux_normal false (Z.pos (mx * my)) (ex + ey) loc_Exact)
    as (m & e & E & Hm & He); [|done|lia|].
  { etrans; [|exact (proj1 Hp)]. done. }
  exists m, e. split; [done|]. split; [done|lia].
Qed.

Lemma SFdiv_normal mx ex my ey :
  (2 ^ 52 <= Z.pos mx < 2 ^ 53)%Z → (2 ^ 52 <= Z.pos my < 2 ^ 53)%Z →
  (-1074 <= ex - ey - 53)%Z → (ex - ey - 51 <= 971)%Z →
  ∃ m e, SFdiv prec emax (S754_finite false mx ex) (S754_finite false my ey)
         = S754_finite false m e
    ∧ (2 ^ 52 <= Z.pos m < 2 ^ 53)%Z
    ∧ (ex - ey - 53 <= e <= ex - ey - 51)%Z.
Proof.
  intros Hx Hy Hlo Hhi. unfold SFdiv, SFdiv_core_binary.
  rewrite (digits_53_bits mx Hx), (digits_53_bits my Hy).
  replace (Z.min (fexp prec emax (53 + ex - (53 + ey))) (ex - ey))
    with (ex - ey - 53)%Z by (unfold fexp, emin, prec, emax; lia).
  replace (ex - ey - (ex - ey - 53))%Z with 53%Z by lia.
  rewrite Z.shiftl_mul_pow2 by done.
  assert (Hdm := Z_div_mod (Z.pos mx * 2 ^ 53) (Z.pos my) ltac:(lia)).
  destruct (Z.div_eucl (Z.pos mx * 2 ^ 53) (Z.pos my)) as [q r].
  destruct Hdm as [Hdm Hr].
  assert (Hq : (2 ^ 52 <= q < 2 ^ 54)%Z).
  { assert (Hlow : (2 ^ 52 * 2 ^ 53 <= Z.pos mx * 2 ^ 53)%Z)
      by (apply Z.mul_le_mono_nonneg_r; lia).
    assert (Hupp : (Z.pos mx * 2 ^ 53 < 2 ^ 53 * 2 ^ 53)%Z)
      by (apply Z.mul_lt_mono_pos_r; lia).
    split.
    - destruct (Z.le_gt_cases (2 ^ 52)%Z q) as [|Hlt]; [done|].
      assert (0 <= q)%Z by nia.
      assert (Z.pos my * q <= (2 ^ 53 - 1) * (2 ^ 52 - 1))%Z
        by (apply Z.mul_le_mono_nonneg; lia).
      change ((2 ^ 53 - 1) * (2 ^ 52 - 1))%Z with (2 ^ 52 * 2 ^ 53 - 2 ^ 53 - 2 ^ 52 + 1)%Z in *.
      lia.
    - destruct (Z.lt_ge_cases q (2 ^ 54)%Z) as [|Hge]; [done|].
      assert (2 ^ 52 * 2 ^ 54 <= Z.pos my * q)%Z
        by (apply Z.mul_le_mono_nonneg; lia).
      change (2 ^ 52 * 2 ^ 54)%Z with (2 ^ 53 * 2 ^ 53)%Z in *. lia. }
  assert (HL : (52 <= Z.log2 q < 54)%Z).
  { split.
    - rewrite <- (Z.log2_pow2 52) by done. apply Z.log2_le_mono. lia.
    - apply Z.log2_lt_pow2; lia. }
  destruct (binary_round_aux_normal false q (ex - ey - 53) (new_location (Z.pos my) r))
    as (m & e & E & Hm & He); [lia|done|lia|].
  exists m, e. split; [done|]. split; [done|lia].
Qed.

Lemma normal_at_normal f e : normal_at f e → positive_normal f.
Proof.
  intros (m & E & Hm). unfold positive_normal.
  rewrite classify_spec, E. unfold SF64classify, SFclassify.
  assert (Hd := digits_53_bits m Hm). simpl in Hd. by rewrite Hd.
Qed.

Lemma mul_normal x y ex ey :
  normal_at x ex → normal_at y ey →
  (-1074 <= ex + ey)%Z → (ex + ey + 54 <= 971)%Z →
  ∃ e, normal_at (x * y)%float e ∧ (ex + ey + 52 <= e <= ex + ey + 54)%Z.
Proof.
  intros (mx & Ex & Hx) (my & Ey & Hy) Hlo Hhi.
  destruct (SFmul_normal mx ex my ey Hx Hy Hlo Hhi) as (m & e & E & Hm & He).
  exists e. split; [|done]. exists m. split; [|done].
  by rewrite mul_spec, Ex, Ey.
Qed.

Lemma div_normal x y ex ey :
  normal_at x ex → normal_at y ey →
  (-1074 <= ex - ey - 53)%Z → (ex - ey - 51 <= 971)%Z →
  ∃ e, normal_at (x / y)%float e ∧ (ex - ey - 53 <= e <= ex - ey - 51)%Z.
Proof.
  intros (mx & Ex & Hx) (my & Ey & Hy) Hlo Hhi.
  destruct (SFdiv_normal mx ex my ey Hx Hy Hlo Hhi) as (m & e & E & Hm & He).
  exists e. split; [|done]. exists m. split; [|done].
  by rewrite div_spec, Ex, Ey.
Qed.

(** A float between two positive normal numbers is positive and normal,
    and its exponent lies between theirs. *)
Lemma between_normal lo hi x elo ehi :
  normal_at lo elo → normal_at hi ehi → (-1074 < elo)%Z →
  (lo <=? x)%float = true → (x <=? hi)%float = true →
  ∃ e, normal_at x e ∧ (elo <= e <= ehi)%Z.
Proof.
  intros (mlo & Elo & Hmlo) (mhi & Ehi & Hmhi) Helo.
  rewrite !leb_spec, Elo, Ehi. assert (Hv := Prim2SF_valid x).
  unfold SFleb, SFcompare.
  destruct (Prim2SF x) as [[]|[]| |[] m e] eqn:Ex; try done.
  intros H1 H2.
  assert (Hle1 : (elo <= e)%Z).
  { destruct (Z.compare_spec elo e); (done || lia). }
  assert (Hle2 : (e <= ehi)%Z).
  { destruct (Z.compare_spec e ehi); (done || lia). }
  exists e. split; [|lia]. exists m. split; [done|].
  simpl in Hv. unfold bounded, canonical_mantissa in Hv.
  apply andb_prop in Hv as [Hc _]. apply Z.eqb_eq in Hc.
  rewrite digits2_size in Hc.
  assert (Hl : Z.log2 (Z.pos m) = 52%Z).
  { unfold fexp, emin, prec, emax in Hc.
    assert (Z.pos (Pos.size m) = Z.log2 (Z.pos m) + 1)%Z by (destruct m; simpl; lia).
    lia. }
  assert (Hs := Z.log2_spec (Z.pos m) ltac:(lia)). rewrite Hl in Hs. exact Hs.
Qed.

(** The conversion there and back, for any conversion constant [c]: four
    operations, each rounded once. *)
Lemma four_roundings (x c d : float) :
  positive_finite x → positive_finite c → positive_finite d →
  positive_normal (x / c)%float →
  positive_normal (x / c * d)%float →
  positive_normal (x / c * d * c)%float →
  positive_normal (x / c * d * c / d)%float →
  Rabs (F2R (x / c * d * c / d)%float - F2R x) <= 5 * bpow (-53) * F2R x.
Proof.
  intros Hx Hc Hd Ha Hb He Ht.
  apply (round_trip_real (bpow (-53)) (F2R x) (F2R c) (F2R d)
           (F2R (x / c)) (F2R (x / c * d)) (F2R (x / c * d * c))).
  - split; [apply bpow_pos|]. unfold bpow. simpl. lra.
  - by apply F2R_pos.
  - by apply F2R_pos.
  - by apply F2R_pos.
  - by apply F2R_pos, positive_normal_finite.
  - by apply F2R_pos, positive_normal_finite.
  - by apply F2R_pos, positive_normal_finite.
  - by apply F2R_pos, positive_normal_finite.
  - by apply div_error.
  - apply mul_error; [by apply positive_normal_finite|done..].
  - apply mul_error; [by apply positive_normal_finite|done..].
  - apply div_error; [by apply positive_normal_finite|done..].
Qed.

End Binary64Facts.

#[local] Set Warnings "-inexact-float".

(** C4 (as amended).  For positive finite [x] and [d], when none of the
    four operations of the round trip underflows or overflows, that is when
    [x / 25.4], [mmToPx x d], [mmToPx x d * 25.4] and the result are normal
    numbers, [pxToMm (mmToPx x d) d] is [x] up to a relative error of
    [5 * 2^-53]. *)
Theorem round_trip_tolerance (x d : float) :
  positive_finite x → positive_finite d →
  positive_normal (x / 25.4)%float →
  positive_normal (mmToPx x d) →
  positive_normal (mmToPx x d * 25.4)%float →
  positive_normal (pxToMm (mmToPx x d) d) →
  (Rabs (F2R (pxToMm (mmToPx x d) d) - F2R x) <= 5 * bpow (-53) * F2R x)%R.
Proof.
  unfold mmToPx, pxToMm. intros Hx Hd Ha Hb He Ht.
  apply four_roundings; try done. by left.
Qed.

Lemma round_trip_tolerance_witness :
  positive_finite 70 ∧ positive_finite 96
  ∧ positive_normal (70 / 25.4)%float
  ∧ positive_normal (mmToPx 70 96)
  ∧ positive_normal (mmToPx 70 96 * 25.4)%float
  ∧ positive_normal (pxToMm (mmToPx 70 96) 96)
  ∧ (Rabs (F2R (pxToMm (mmToPx 70 96) 96) - F2R 70) <= 5 * bpow (-53) * F2R 70)%R.
Proof.
  repeat (split; [reflexivity || (left; reflexivity)|]).
  apply (round_trip_tolerance 70 96); reflexivity || (left; reflexivity).
Defined.

(** C4 as stated fails at the ends of the range.  For the finite
    [x = 1e308] and [d = 1e300] the product overflows and the round trip is
    [infinity]; for the smallest positive number the quotient underflows
    and the round trip is [0]; and for the positive [d = infinity] the
    round trip of [70] is [NaN]. *)
Lemma round_trip_counterexample :
  classify 1e308 = PNormal ∧ classify 1e300 = PNormal
  ∧ pxToMm (mmToPx 1e308 1e300) 1e300 = infinity
  ∧ classify 5e-324 = PSubn
  ∧ pxToMm (mmToPx 5e-324 96) 96 = 0%float
  ∧ (0 <? infinity)%float = true
  ∧ pxToMm (mmToPx 70 infinity) infinity = nan.
Proof. repeat split; reflexivity. Qed.

(** X25.  Zero survives the round trip exactly, at every positive finite
    resolution. *)
Lemma round_trip_zero (d : float) :
  positive_finite d → pxToMm (mmToPx 0 d) d = 0%float.
Proof.
  intros (md & ed & Ed)%positive_finite_inv. unfold mmToPx, pxToMm.
  apply Prim2SF_inj. rewrite div_spec, mul_spec, mul_spec, div_spec, Ed.
  reflexivity.
Qed.

Lemma round_trip_zero_witness :
  positive_finite 96 ∧ pxToMm (mmToPx 0 96) 96 = 0%float.
Proof.
  split; [left; reflexivity|]. apply (round_trip_zero 96). left; reflexivity.
Defined.

(** X26.  Far from the ends of the range nothing underflows or overflows:
    for a length and a resolution between [1e-100] and [1e100] the round
    trip is a normal number within [5 * 2^-53] of the length, in relative
    terms. *)
Theorem round_trip_in_range (x d : float) :
  (1e-100 <=? x)%float = true → (x <=? 1e100)%float = true →
  (1e-100 <=? d)%float = true → (d <=? 1e100)%float = true →
  positive_normal (pxToMm (mmToPx x d) d)
  ∧ (Rabs (F2R (pxToMm (mmToPx x d) d) - F2R x) <= 5 * bpow (-53) * F2R x)%R.
Proof.
  intros Hx1 Hx2 Hd1 Hd2.
  assert (Hlo : normal_at 1e-100 (-385)) by (eexists; split; [reflexivity|done]).
  assert (Hhi : normal_at 1e100 280) by (eexists; split; [reflexivity|done]).
  assert (Hc : normal_at 25.4 (-48)) by (eexists; split; [reflexivity|done]).
  destruct (between_normal _ _ x _ _ Hlo Hhi ltac:(lia) Hx1 Hx2) as (ex & Hx & Hex).
  destruct (between_normal _ _ d _ _ Hlo Hhi ltac:(lia) Hd1 Hd2) as (ed & Hd & Hed).
  destruct (div_normal x 25.4 ex (-48) Hx Hc) as (ea & Ha & Hea); [lia..|].
  destruct (mul_normal _ d ea ed Ha Hd) as (eb & Hb & Heb); [lia..|].
  destruct (mul_normal _ 25.4 eb (-48) Hb Hc) as (ee & He & Hee); [lia..|].
  destruct (div_normal _ d ee ed He Hd) as (er & Hr & Her); [lia..|].
  unfold mmToPx, pxToMm.
  split; [by eapply normal_at_normal|].
  apply four_roundings;
    (by eapply normal_at_normal) || (left; by eapply normal_at_normal).
Qed.

Lemma round_trip_in_range_witness :
  (1e-100 <=? 70)%float = true ∧ (70 <=? 1e100)%float = true
  ∧ (1e-100 <=? 96)%float = true ∧ (96 <=? 1e100)%float = true
  ∧ positive_normal (pxToMm (mmToPx 70 96) 96)
  ∧ (Rabs (F2R (pxToMm (mmToPx 70 96) 96) - F2R 70) <= 5 * bpow (-53) * F2R 70)%R.
Proof.
  repeat (split; [reflexivity|]). apply (round_trip_in_range 70 96); reflexivity.
Defined.

#[local] Set Warnings "inexact-float".

(** ** The merge engine *)

Section MergeFacts.

Variable config : CardConfig.t.
Variable templates : Templates.t.
Variable fields : list Field.t.

Lemma page_eta (pg : JsPDF.page) : JsPDF.mkPage (JsPDF.size pg) (JsPDF.items pg) = pg.
Proof. by destruct pg. Qed.

(** Drawing the text of a list of fields appends one run per field to the
    page being drawn, and touches no other page. *)
Lemma forEach_text_spec (person : Person) (l : list Field.t) (doc : JsPDF.doc) :
  let doc' :=
    Js.forEach
      (λ f doc,
         let text := display_text person f in
         let doc := JsPDF.setFontSize (Field.fontSize f) doc in
         let doc := JsPDF.setTextColor (Field.color f) doc in
         let doc := JsPDF.setFont (Field.fontFamily f) "normal" doc in
         JsPDF.text_at text (Field.x f) (Field.y f) (Field.align f) doc) l doc in
  JsPDF.finished doc' = JsPDF.finished doc
  ∧ JsPDF.size (JsPDF.current doc') = JsPDF.size (JsPDF.current doc)
  ∧ JsPDF.items (JsPDF.current doc')
    = JsPDF.items (JsPDF.current doc) ++ map (λ f, JsPDF.Text (run_of person f)) l.
Proof.
  revert doc. induction l as [|f l IH]; intros doc; cbn.
  - by rewrite app_nil_r.
  - unfold Js.forEach in IH. cbn in IH.
    destruct (IH (JsPDF.text_at (display_text person f) (Field.x f) (Field.y f)
                    (Field.align f)
                    (JsPDF.setFont (Field.fontFamily f) "normal"
                       (JsPDF.setTextColor (Field.color f)
                          (JsPDF.setFontSize (Field.fontSize f) doc)))))
      as (Hfin & Hsize & Hitems).
    unfold Js.forEach. cbn. rewrite Hfin, Hsize, Hitems. cbn.
    by rewrite <- app_assoc.
Qed.

Lemma draw_fields_spec (side : Side) (person : Person) (doc : JsPDF.doc) :
  JsPDF.finished (draw_fields fields side person doc) = JsPDF.finished doc
  ∧ JsPDF.size (JsPDF.current (draw_fields fields side person doc))
    = JsPDF.size (JsPDF.current doc)
  ∧ JsPDF.items (JsPDF.current (draw_fields fields side person doc))
    = JsPDF.items (JsPDF.current doc)
      ++ map (λ f, JsPDF.Text (run_of person f)) (side_fields fields side).
Proof. apply forEach_text_spec. Qed.

Lemma draw_background_spec (template : option string) (doc : JsPDF.doc) :
  JsPDF.finished (draw_background config template doc) = JsPDF.finished doc
  ∧ JsPDF.size (JsPDF.current (draw_background config template doc))
    = JsPDF.size (JsPDF.current doc)
  ∧ JsPDF.items (JsPDF.current (draw_background config template doc))
    = JsPDF.items (JsPDF.current doc) ++ [background_item config template].
Proof.
  unfold draw_background, background_item.
  by destruct (Js.truthy template).
Qed.

(** One side: a background and the fields of that side, drawn on a page
    that was blank. *)
Lemma draw_side_spec (side : Side) (template : option string) (person : Person)
    (doc : JsPDF.doc) :
  JsPDF.items (JsPDF.current doc) = [] →
  JsPDF.size (JsPDF.current doc) = (widthMm config, heightMm config) →
  let doc' := draw_fields fields side person (draw_background config template doc) in
  JsPDF.finished doc' = JsPDF.finished doc
  ∧ JsPDF.current doc' = side_page config fields side template person.
Proof.
  intros Hblank Hsize doc'. subst doc'.
  destruct (draw_fields_spec side person (draw_background config template doc))
    as (Hf & Hs & Hi).
  destruct (draw_background_spec template doc) as (Hf' & Hs' & Hi').
  split; [by rewrite Hf|].
  rewrite <- (page_eta (JsPDF.current _)).
  rewrite Hs, Hi, Hs', Hi', Hblank, Hsize. done.
Qed.

Lemma merge_person_blank (person : Person) (doc : JsPDF.doc) :
  JsPDF.items (JsPDF.current doc) = [] →
  JsPDF.size (JsPDF.current doc) = (widthMm config, heightMm config) →
  JsPDF.pages (merge_person config templates fields 0 person doc)
  = JsPDF.finished doc ++ person_pages config templates fields person.
Proof.
  intros Hblank Hsize. unfold merge_person, person_pages, has_back. cbn.
  destruct (draw_side_spec Front (Templates.front templates) person doc Hblank Hsize)
    as (Hf & Hc). cbn in Hf, Hc.
  set (doc1 := draw_fields fields Front person
                 (draw_background config (Templates.front templates) doc)) in *.
  destruct (Js.truthy (Templates.back templates)
            || Js.some (λ f, bool_decide (Field.side f = Back)) fields).
  - destruct (draw_side_spec Back (Templates.back templates) person
                (JsPDF.addPage (widthMm config, heightMm config) doc1) eq_refl eq_refl)
      as (Hf2 & Hc2). cbn in Hf2, Hc2.
    unfold JsPDF.pages. rewrite Hf2, Hc2, Hf, Hc. by rewrite <- app_assoc.
  - unfold JsPDF.pages. by rewrite Hf, Hc.
Qed.

Lemma merge_person_next (i : nat) (person : Person) (doc : JsPDF.doc) :
  JsPDF.pages (merge_person config templates fields (S i) person doc)
  = JsPDF.pages doc ++ person_pages config templates fields person.
Proof.
  unfold merge_person. cbn [Nat.ltb Nat.leb].
  change (JsPDF.pages doc)
    with (JsPDF.finished (JsPDF.addPage (widthMm config, heightMm config) doc)).
  apply merge_person_blank; done.
Qed.

Lemma merge_from_next (i : nat) (people : list Person) (doc : JsPDF.doc) :
  JsPDF.pages (merge_from config templates fields (S i) people doc)
  = JsPDF.pages doc ++ flat_map (person_pages config templates fields) people.
Proof.
  revert i doc. induction people as [|person people IH]; intros i doc; cbn.
  - by rewrite app_nil_r.
  - rewrite IH, merge_person_next. by rewrite <- app_assoc.
Qed.

Lemma merge_from_blank (people : list Person) (doc : JsPDF.doc) :
  people ≠ [] →
  JsPDF.items (JsPDF.current doc) = [] →
  JsPDF.size (JsPDF.current doc) = (widthMm config, heightMm config) →
  JsPDF.pages (merge_from config templates fields 0 people doc)
  = JsPDF.finished doc ++ flat_map (person_pages config templates fields) people.
Proof.
  destruct people as [|person people]; [done|]. intros _ Hblank Hsize. cbn.
  rewrite merge_from_next, merge_person_blank by done.
  by rewrite <- app_assoc.
Qed.

Lemma length_person_pages (person : Person) :
  length (person_pages config templates fields person)
  = pages_per_person templates fields.
Proof. unfold person_pages, pages_per_person. by destruct has_back. Qed.

Lemma length_flat_map_person_pages (people : list Person) :
  length (flat_map (person_pages config templates fields) people)
  = pages_per_person templates fields * length people.
Proof.
  induction people as [|person people IH]; cbn [flat_map length]; [lia|].
  rewrite length_app, IH, length_person_pages. lia.
Qed.

(** The pages of the [i]-th attendee start at [pages_per_person * i]. *)
Lemma lookup_flat_map_person_pages (people : list Person) (i j : nat) (person : Person) :
  people !! i = Some person →
  j < pages_per_person templates fields →
  flat_map (person_pages config templates fields) people
    !! (pages_per_person templates fields * i + j)
  = person_pages config templates fields person !! j.
Proof.
  revert i. induction people as [|q people IH]; intros i Hi Hj; [done|].
  destruct i as [|i]; cbn in Hi; cbn [flat_map].
  - injection Hi as ->. rewrite Nat.mul_0_r, Nat.add_0_l.
    apply lookup_app_l. by rewrite length_person_pages.
  - rewrite lookup_app_r by (rewrite length_person_pages; lia).
    rewrite length_person_pages, <- (IH i Hi Hj). f_equal. lia.
Qed.

Lemma runs_side_page (side : Side) (template : option string) (person : Person) :
  JsPDF.runs (side_page config fields side template person)
  = map (run_of person) (side_fields fields side).
Proof.
  unfold JsPDF.runs, side_page, side_items. cbn [JsPDF.items].
  assert (Hbg : omap (λ it, match it with JsPDF.Text r => Some r | _ => None end)
                  [background_item config template] = []).
  { unfold background_item. by destruct (Js.truthy template). }
  change (background_item config template :: ?l)
    with ([background_item config template] ++ l).
  rewrite omap_app, Hbg. cbn [app].
  induction (side_fields fields side) as [|f l IH]; [done|].
  cbn. by rewrite IH.
Qed.

End MergeFacts.

(** The document [generatePDF] builds holds, for each attendee in table
    order, the pages of that attendee. *)
Lemma generatePDF_pages (s : State.t) :
  State.people s ≠ [] →
  JsPDF.pages (generatePDF s).2
  = flat_map (person_pages (State.config s) (State.templates s) (State.fields s))
      (State.people s).
Proof.
  intros Hne. unfold generatePDF. cbn [snd].
  by rewrite merge_from_blank.
Qed.

(** The page of one side of the [i]-th attendee. *)
Lemma generatePDF_side_page (s : State.t) (i : nat) (person : Person) (side : Side) :
  State.people s !! i = Some person →
  side = Front ∨ has_back (State.templates s) (State.fields s) = true →
  JsPDF.pages (generatePDF s).2
    !! (pages_per_person (State.templates s) (State.fields s) * i + side_offset side)
  = Some (side_page (State.config s) (State.fields s) side
            (template_of (State.templates s) side) person).
Proof.
  intros Hi Hside.
  assert (Hne : State.people s ≠ []) by (intros E; by rewrite E in Hi).
  rewrite generatePDF_pages by done.
  assert (Hlt : side_offset side
               < pages_per_person (State.templates s) (State.fields s)).
  { unfold pages_per_person.
    destruct Hside as [->|Hb]; [destruct has_back; cbn; lia|].
    rewrite Hb. destruct side; cbn; lia. }
  rewrite (lookup_flat_map_person_pages _ _ _ _ _ _ person Hi Hlt).
  unfold person_pages.
  destruct Hside as [->|Hb]; [done|].
  rewrite Hb. by destruct side.
Qed.

Lemma some_back_Exists (fields : list Field.t) :
  Js.some (λ f, bool_decide (Field.side f = Back)) fields = true
  ↔ Exists (λ f, Field.side f = Back) fields.
Proof.
  induction fields as [|f fields IH]; cbn.
  - split; [done|]. intros H. inversion H.
  - rewrite Exists_cons, orb_true_iff, bool_decide_eq_true.
    unfold Js.some in IH. by rewrite IH.
Qed.

Lemma has_back_true (templates : Templates.t) (fields : list Field.t) :
  has_back templates fields = true
  ↔ Js.truthy (Templates.back templates) = true
    ∨ Exists (λ f, Field.side f = Back) fields.
Proof. unfold has_back. by rewrite orb_true_iff, some_back_Exists. Qed.

Lemma has_back_false (templates : Templates.t) (fields : list Field.t) :
  has_back templates fields = false
  ↔ Js.truthy (Templates.back templates) = false
    ∧ Forall (λ f, Field.side f ≠ Back) fields.
Proof.
  rewrite <- !not_true_iff_false, has_back_true, Forall_Exists_neg. tauto.
Qed.

(** Every pass of the loop adds the same number of pages, whoever the
    attendee is: one for the front unless it is drawn on the first page of
    the document, and one for the back when there is back content. *)
Lemma merge_person_page_count (config : CardConfig.t) (templates : Templates.t)
    (fields : list Field.t) (i : nat) (person : Person) (doc : JsPDF.doc) :
  length (JsPDF.pages (merge_person config templates fields i person doc))
  = length (JsPDF.pages doc) + (if 0 <? i then 1 else 0)
    + (if has_back templates fields then 1 else 0).
Proof.
  unfold merge_person, has_back, JsPDF.pages.
  set (doc0 := if 0 <? i then JsPDF.addPage _ doc else doc).
  assert (H0 : length (JsPDF.finished doc0)
               = length (JsPDF.finished doc) + (if 0 <? i then 1 else 0)).
  { subst doc0. destruct (0 <? i); cbn; rewrite ?length_app; cbn; lia. }
  destruct (draw_fields_spec fields Front person
              (draw_background config (Templates.front templates) doc0)) as (Hf & _).
  destruct (draw_background_spec config (Templates.front templates) doc0) as (Hb & _).
  set (doc1 := draw_fields fields Front person _) in *.
  destruct (Js.truthy (Templates.back templates) || _).
  - destruct (draw_fields_spec fields Back person
                (draw_background config (Templates.back templates)
                   (JsPDF.addPage (widthMm config, heightMm config) doc1))) as (Hf2 & _).
    destruct (draw_background_spec config (Templates.back templates)
                (JsPDF.addPage (widthMm config, heightMm config) doc1)) as (Hb2 & _).
    rewrite !length_app, Hf2, Hb2. cbn. rewrite length_app, Hf, Hb, H0. cbn. lia.
  - rewrite !length_app, Hf, Hb, H0. cbn. lia.
Qed.

(** C1 (page count law).  For a merge run over a non-empty table of [N]
    attendees the document has exactly [N] pages when there is neither a
    back image nor a field on the back side, and exactly [2 * N] pages when
    there is either.  Whether a pass of the loop emits a back page is one
    boolean for the whole run: it is fixed by the templates and the field
    list, and every pass, for any attendee record, adds the same pages. *)
Theorem page_count_law (s : State.t) :
  State.people s ≠ [] →
  (Js.truthy (Templates.back (State.templates s)) = false
   ∧ Forall (λ f, Field.side f ≠ Back) (State.fields s)
   → length (JsPDF.pages (generatePDF s).2) = length (State.people s))
  ∧ (Js.truthy (Templates.back (State.templates s)) = true
     ∨ Exists (λ f, Field.side f = Back) (State.fields s)
     → length (JsPDF.pages (generatePDF s).2) = 2 * length (State.people s))
  ∧ (∃ back_page : bool, ∀ (i : nat) (person : Person) (doc : JsPDF.doc),
       length (JsPDF.pages
                 (merge_person (State.config s) (State.templates s) (State.fields s)
                    i person doc))
       = length (JsPDF.pages doc) + (if 0 <? i then 1 else 0)
         + (if back_page then 1 else 0)).
Proof.
  intros Hne.
  assert (Hlen : length (JsPDF.pages (generatePDF s).2)
                 = pages_per_person (State.templates s) (State.fields s)
                   * length (State.people s)).
  { rewrite generatePDF_pages by done. apply length_flat_map_person_pages. }
  split; [|split].
  - intros Hno. apply has_back_false in Hno.
    rewrite Hlen. unfold pages_per_person. rewrite Hno. lia.
  - intros Hyes. apply has_back_true in Hyes.
    rewrite Hlen. unfold pages_per_person. by rewrite Hyes.
  - exists (has_back (State.templates s) (State.fields s)).
    intros i person doc. apply merge_person_page_count.
Qed.

Lemma page_count_law_witness :
  State.people initial_state ≠ []
  ∧ length (JsPDF.pages (generatePDF initial_state).2) = 3.
Proof.
  assert (Hne : State.people initial_state ≠ []) by discriminate.
  split; [exact Hne|].
  destruct (page_count_law initial_state Hne) as (Hfront & _).
  apply Hfront. split; [reflexivity|].
  repeat constructor; discriminate.
Defined.

(** C2 (fallback law), at an input where the code departs from it.  The
    design has one field, named ["toString"], and the record of the only
    attendee has no key of that name, so the claim asks for the literal
    text ["toString"].  The read [person[f.name]] does not come back
    [undefined]: it finds the function every object inherits from
    [Object.prototype], a truthy value, so [||] never reaches the field's
    name and the text handed to [doc.text] is that function, which is not
    the string ["toString"]. *)
Theorem fallback_inherited_key :
  State.people inherited_state !! 0 = Some inherited_person
  ∧ inherited_person !! "toString" = None
  ∧ display_text inherited_person inherited_field = JsObject.Inherited "toString"
  ∧ JsPDF.text <$> default [] (JsPDF.runs <$> JsPDF.pages (generatePDF inherited_state).2 !! 0)
    = [JsObject.Inherited "toString"]
  ∧ JsObject.Inherited "toString" ≠ JsObject.Str (Field.name inherited_field).
Proof. repeat split; try reflexivity. discriminate. Qed.

(** X23 (the text rule of the merge).  For the [i]-th attendee [person]
    and each side that is printed, the page of that side carries one text
    run per field of that side, in field order, and the text of the run of
    field [f] is the value the record owns under [f.name] when that is
    non-empty; the literal [f.name] when the owned value is empty, or when
    the record owns no such key and [f.name] is not the name of a property
    of [Object.prototype]; and the inherited value when the record owns no
    such key and [f.name] is such a name.  Front and back go through the
    same rule. *)
Theorem fallback_law (s : State.t) (i : nat) (person : Person) (side : Side) :
  State.people s !! i = Some person →
  side = Front ∨ has_back (State.templates s) (State.fields s) = true →
  ∃ pg : JsPDF.page,
    JsPDF.pages (generatePDF s).2
      !! (pages_per_person (State.templates s) (State.fields s) * i + side_offset side)
    = Some pg
    ∧ Forall2 (resolves person) (side_fields (State.fields s) side) (JsPDF.runs pg).
Proof.
  intros Hi Hside. eexists. split; [by apply generatePDF_side_page|].
  rewrite runs_side_page. apply Forall2_fmap_r, Forall_Forall2_diag, Forall_forall.
  intros f _. unfold resolves, run_of, display_text, JsObject.get. cbn.
  split; [|split; [|split]].
  - intros v -> Hv. cbn. by destruct v.
  - by intros ->.
  - intros -> Hnot. by destruct (decide (Field.name f ∈ JsObject.prototype_keys)).
  - intros -> Hin. by destruct (decide (Field.name f ∈ JsObject.prototype_keys)).
Qed.

Lemma fallback_law_witness :
  ∃ pg : JsPDF.page,
    JsPDF.pages (generatePDF example_state).2 !! 1 = Some pg
    ∧ Forall2 (resolves example_person) [example_back_field] (JsPDF.runs pg).
Proof.
  apply (fallback_law example_state 0 example_person Back); [reflexivity|].
  right. reflexivity.
Defined.

(** In a run over [example_state] the record has no ["Role"] key, and the
    back page shows the field's own name. *)
Example fallback_law_Role :
  JsPDF.runs <$> JsPDF.pages (generatePDF example_state).2 !! 1
  = Some [JsPDF.mkRun "Role" 70 55 AlignCenter 16 "#2563EB" "helvetica" "normal"].
Proof. reflexivity. Qed.

(** C3 (geometry determinism).  On the page of each printed side of every
    attendee, the run of each field of that side sits at exactly the
    field's stored [x] and [y]; and two runs whose card width and height,
    field list, attendee table and templates agree produce the same
    document and file name, whatever their [dpi] values (and the rest of
    the component state) are. *)
Theorem geometry_determinism :
  (∀ (s : State.t) (i : nat) (person : Person) (side : Side),
     State.people s !! i = Some person →
     side = Front ∨ has_back (State.templates s) (State.fields s) = true →
     ∃ pg : JsPDF.page,
       JsPDF.pages (generatePDF s).2
         !! (pages_per_person (State.templates s) (State.fields s) * i + side_offset side)
       = Some pg
       ∧ Forall2 placed_at (side_fields (State.fields s) side) (JsPDF.runs pg))
  ∧ (∀ s1 s2 : State.t,
       CardConfig.width (State.config s1) = CardConfig.width (State.config s2) →
       CardConfig.height (State.config s1) = CardConfig.height (State.config s2) →
       State.fields s1 = State.fields s2 →
       State.people s1 = State.people s2 →
       State.templates s1 = State.templates s2 →
       generatePDF s1 = generatePDF s2).
Proof.
  split.
  - intros s i person side Hi Hside. eexists.
    split; [by apply generatePDF_side_page|].
    rewrite runs_side_page. apply Forall2_fmap_r, Forall_Forall2_diag, Forall_forall.
    intros f _. by split.
  - intros [[w1 h1 d1] t1 f1 p1 sel1 a1 n1] [[w2 h2 d2] t2 f2 p2 sel2 a2 n2].
    cbn. by intros -> -> -> -> ->.
Qed.

Lemma geometry_determinism_witness :
  (∃ pg : JsPDF.page,
     JsPDF.pages (generatePDF initial_state).2 !! 0 = Some pg
     ∧ Forall2 placed_at initial_fields (JsPDF.runs pg))
  ∧ generatePDF (State.setConfig (CardConfig.mk 14 9.5 300) initial_state)
    = generatePDF initial_state.
Proof.
  destruct geometry_determinism as (Hplace & Hdpi). split.
  - apply (Hplace initial_state 0 (default ∅ (head SAMPLE_DATA)) Front);
      [reflexivity | by left].
  - apply Hdpi; reflexivity.
Defined.

(** ** The card configuration *)

Lemma is_nan_or_number (v : float) : PrimFloat.is_nan (Js.or_number v 0) = false.
Proof.
  unfold Js.or_number, Js.truthy_number.
  destruct (PrimFloat.is_nan v) eqn:Hnan; [reflexivity|].
  destruct (PrimFloat.is_zero v); [reflexivity | exact Hnan].
Qed.

(** C7 (as amended).  In every state reachable through the two
    card-configuration updates the resolution is still the default 96, so
    it is positive, and width and height are numbers, never [NaN]; they
    need not be positive. *)
Theorem config_invariant (s : State.t) :
  config_reachable s →
  CardConfig.dpi (State.config s) = 96%float
  ∧ (0 <? CardConfig.dpi (State.config s))%float = true
  ∧ PrimFloat.is_nan (CardConfig.width (State.config s)) = false
  ∧ PrimFloat.is_nan (CardConfig.height (State.config s)) = false.
Proof.
  revert s. apply rtc_ind_r.
  - repeat split; reflexivity.
  - intros s1 s2 _ Hstep (Hdpi & Hpos & Hw & Hh).
    destruct Hstep as [v s1|v s1]; cbn; rewrite ?is_nan_or_number; done.
Qed.

Lemma config_invariant_witness :
  config_reachable (onChangeWidth nan initial_state)
  ∧ CardConfig.dpi (State.config (onChangeWidth nan initial_state)) = 96%float.
Proof.
  assert (H : config_reachable (onChangeWidth nan initial_state)).
  { apply rtc_once. constructor. }
  split; [exact H|]. exact (proj1 (config_invariant _ H)).
Defined.

Example initial_config_positive : positive_spec (State.config initial_state) = true.
Proof. reflexivity. Qed.

(** C7 as stated fails: clearing the width input makes [parseFloat] read
    [NaN], the handler stores 0, and the card is no longer of positive
    width. *)
Lemma config_invariant_counterexample :
  config_reachable (onChangeWidth nan initial_state)
  ∧ CardConfig.width (State.config (onChangeWidth nan initial_state)) = 0%float
  ∧ positive_spec (State.config (onChangeWidth nan initial_state)) = false.
Proof.
  split; [apply rtc_once; constructor|]. split; reflexivity.
Qed.

(** A negative number typed into the height input is stored as it is. *)
Example negative_height :
  CardConfig.height (State.config (onChangeHeight (-3) initial_state)) = (-3)%float.
Proof. reflexivity. Qed.

(** ** The field placement model *)

Lemma removeField_fields (id : string) (s : State.t) :
  State.fields (removeField id s) = filter (λ f, Field.id f ≠ id) (State.fields s).
Proof. unfold removeField. by destruct (decide _). Qed.

Lemma removeField_selected (id : string) (s : State.t) :
  State.selectedFieldId (removeField id s)
  = if decide (State.selectedFieldId s = Some id) then None
    else State.selectedFieldId s.
Proof. unfold removeField. by destruct (decide _). Qed.

Lemma length_filter_split {A : Type} (P : A → Prop) `{!∀ x, Decision (P x)} (l : list A) :
  length (filter (λ x, ¬ P x) l) + length (filter P l) = length l.
Proof.
  induction l as [|x l IH]; [done|].
  rewrite !filter_cons. destruct (decide (P x)), (decide (¬ P x)); cbn; try lia; tauto.
Qed.

(** C9 (frame of the field operations).  [updateField id updates] keeps the
    length and the order of the field list: position by position, a field
    whose id is [id] becomes that field with the changes merged in, and any
    other field stays as it was.  [removeField id] keeps, in their order,
    exactly the fields whose id is not [id]: the result is a sublist of the
    old list, holds the fields with another id and only them, and is
    shorter by the number of fields with that id. *)
Theorem field_ops_frame (id : string) (updates : PartialField.t) (s : State.t) :
  (length (State.fields (updateField id updates s)) = length (State.fields s)
   ∧ (∀ (i : nat) (f : Field.t),
        State.fields s !! i = Some f → Field.id f = id →
        State.fields (updateField id updates s) !! i = Some (spread f updates))
   ∧ (∀ (i : nat) (f : Field.t),
        State.fields s !! i = Some f → Field.id f ≠ id →
        State.fields (updateField id updates s) !! i = Some f))
  ∧ (State.fields (removeField id s) `sublist_of` State.fields s
     ∧ (∀ f : Field.t,
          f ∈ State.fields (removeField id s) ↔ f ∈ State.fields s ∧ Field.id f ≠ id)
     ∧ length (State.fields (removeField id s))
       + length (filter (λ f, Field.id f = id) (State.fields s))
       = length (State.fields s)).
Proof.
  split.
  - unfold updateField. cbn.
    change (map ?g ?l) with (g <$> l).
    split; [by rewrite length_fmap|].
    split; intros i f Hi Hid; rewrite list_lookup_fmap, Hi; cbn;
      by destruct (decide (Field.id f = id)).
  - rewrite removeField_fields. split; [apply sublist_filter|]. split.
    + intros f. rewrite list_elem_of_filter. tauto.
    + apply (length_filter_split (λ f, Field.id f = id)).
Qed.

(** What merging changes means, key by key: a key the changes carry takes
    the new value, any other key keeps the old one. *)
Lemma spread_name (f : Field.t) (updates : PartialField.t) :
  Field.name (spread f updates)
  = match PartialField.name updates with Some v => v | None => Field.name f end.
Proof. unfold spread. cbn. by destruct (PartialField.name updates). Qed.

Lemma spread_empty (f : Field.t) : spread f PartialField.empty = f.
Proof. by destruct f. Qed.

Lemma selection_ok_addField (randomId : nat → string) (s : State.t) :
  selection_ok (addField randomId s).
Proof.
  unfold selection_ok, addField. cbn.
  match goal with |- ∃ f, f ∈ _ ++ [?new] ∧ _ => exists new end.
  split; [|reflexivity].
  apply elem_of_app. right. by apply list_elem_of_singleton.
Qed.

Lemma selection_ok_removeField (id : string) (s : State.t) :
  selection_ok s → selection_ok (removeField id s).
Proof.
  unfold selection_ok. rewrite removeField_selected, removeField_fields.
  destruct (decide (State.selectedFieldId s = Some id)) as [|Hne]; [done|].
  destruct (State.selectedFieldId s) as [sel|]; [|done].
  intros (f & Hf & Hid). exists f. split; [|done].
  apply list_elem_of_filter. split; [congruence|done].
Qed.

Lemma selection_ok_updateField (id : string) (updates : PartialField.t) (s : State.t) :
  keeps_id (UpdateField id updates) →
  selection_ok s → selection_ok (updateField id updates s).
Proof.
  unfold selection_ok, updateField, keeps_id. cbn. intros Hkeep.
  destruct (State.selectedFieldId s) as [sel|]; [|done].
  intros (f & Hf & Hid).
  exists (if decide (Field.id f = id) then spread f updates else f). split.
  - change (map ?g ?l) with (g <$> l).
    apply list_elem_of_fmap. by exists f.
  - destruct (decide (Field.id f = id)) as [Heq|]; [|done].
    unfold spread. cbn. destruct Hkeep as [-> | ->]; cbn; congruence.
Qed.

(** C8 (as amended).  Starting from a state whose selection is null or
    names a field of the list, after every sequence of [addField],
    [removeField] and those [updateField] calls whose changes leave the id
    alone, the selection is again null or the id of a field of the current
    list; and [removeField id] sets the selection to null whenever the
    removed id was the selected one. *)
Theorem selection_integrity (randomId : nat → string) (ops : list FieldOp) (s : State.t) :
  selection_ok s →
  Forall keeps_id ops →
  selection_ok (run_ops randomId ops s)
  ∧ (∀ id : string,
       State.selectedFieldId (run_ops randomId ops s) = Some id →
       State.selectedFieldId (removeField id (run_ops randomId ops s)) = None).
Proof.
  intros Hs Hops. split.
  - revert s Hs. induction Hops as [|op ops Hop Hops IH]; intros s Hs; [done|].
    cbn. apply IH. destruct op as [|id updates|id]; cbn.
    + apply selection_ok_addField.
    + by apply selection_ok_updateField.
    + by apply selection_ok_removeField.
  - intros id Hsel. rewrite removeField_selected.
    by destruct (decide _).
Qed.

Lemma selection_integrity_witness :
  selection_ok
    (run_ops fresh_ids
       [AddField; UpdateField "r0" example_rename; RemoveField "f1"] initial_state)
  ∧ State.selectedFieldId
      (removeField "r0"
         (run_ops fresh_ids
            [AddField; UpdateField "r0" example_rename; RemoveField "f1"] initial_state))
    = None.
Proof.
  assert (Hs : selection_ok initial_state) by exact I.
  assert (Hops : Forall keeps_id
                   [AddField; UpdateField "r0" example_rename; RemoveField "f1"]).
  { repeat constructor. }
  destruct (selection_integrity fresh_ids _ initial_state Hs Hops) as (Hok & Hrm).
  split; [exact Hok|]. apply Hrm. reflexivity.
Defined.

(** C8 as stated fails: [updateField] merges whatever keys the changes
    carry, the id among them.  After [addField] the new field ["r0"] is
    selected; an update that rewrites its id leaves the selection naming a
    field that is no longer in the list. *)
Lemma selection_integrity_counterexample :
  selection_ok initial_state
  ∧ State.selectedFieldId
      (run_ops fresh_ids [AddField; UpdateField "r0" example_reid] initial_state)
    = Some "r0"
  ∧ Field.id <$> State.fields
      (run_ops fresh_ids [AddField; UpdateField "r0" example_reid] initial_state)
    = ["f1"; "f2"; "x9"]
  ∧ ¬ selection_ok
        (run_ops fresh_ids [AddField; UpdateField "r0" example_reid] initial_state).
Proof.
  split; [exact I|]. split; [reflexivity|]. split; [reflexivity|].
  unfold selection_ok.
  change (State.selectedFieldId _) with (Some "r0").
  intros (f & Hf & Hid).
  apply (list_elem_of_fmap_2 Field.id) in Hf. rewrite Hid in Hf.
  change (Field.id <$> _) with ["f1"; "f2"; "x9"] in Hf.
  repeat (apply elem_of_cons in Hf as [Hf|Hf]; [discriminate|]).
  by apply elem_of_nil in Hf.
Qed.

(** ** The bulk import *)

Example trim_example :
  Js.trim (" " +:+ nl +:+ " Full Name  " +:+ nl) = "Full Name".
Proof. reflexivity. Qed.

Example split_example : Js.split Js.comma "a,,b," = ["a"; ""; "b"; ""].
Proof. reflexivity. Qed.

Example cells_example : cells " Ada , Speaker,," = ["Ada"; "Speaker"; ""; ""].
Proof. reflexivity. Qed.

(** A split has one piece more than the separator has occurrences. *)
Lemma length_split (sep : ascii) (s : string) :
  length (Js.split sep s) = S (occurrences sep s).
Proof.
  induction s as [|c s IH]; [done|]. cbn.
  destruct (decide (c = sep)); cbn; [by rewrite IH|].
  destruct (Js.split sep s); cbn in *; lia.
Qed.

(** Fewer than two lines: no line feed is left once the text is trimmed. *)
Lemma one_line_iff (text : string) :
  length (Js.split Js.LF (Js.trim text)) < 2 ↔ occurrences Js.LF (Js.trim text) = 0.
Proof. rewrite length_split. lia. Qed.

Section ImportFacts.

Variable randomId : nat → string.

(** The [forEach] over the headers builds the zipped record. *)
Lemma forEach_from_assign (values headers : list string) (i : nat) (person : Person) :
  Js.forEach_from i (assign_column values) headers person
  = zip_record person headers (drop i values).
Proof.
  revert i person. induction headers as [|header headers IH]; intros i person; [done|].
  cbn [Js.forEach_from]. rewrite IH. unfold assign_column, zip_record.
  destruct (values !! i) as [v|] eqn:Hv.
  - rewrite (drop_S _ _ _ Hv). cbn [zip zip_with Js.truthy default].
    rewrite filter_cons. cbn [snd fst].
    destruct v as [|c v]; cbn [Js.truthy_string].
    + destruct (decide ("" ≠ "")) as [Hn|_]; [by destruct Hn | reflexivity].
    + destruct (decide (String c v ≠ "")) as [_|Hn]; [reflexivity | by destruct Hn].
  - apply lookup_ge_None in Hv.
    rewrite !drop_ge by lia. cbn. by rewrite zip_with_nil_r.
Qed.

Lemma parse_line_spec (headers : list string) (line : string) (n : nat) :
  parse_line randomId headers line n
  = zip_record {["id" := randomId n]} headers (cells line).
Proof. unfold parse_line, Js.forEachi. by rewrite forEach_from_assign. Qed.

Lemma parse_lines_spec (headers lines : list string) (n : nat) (newPeople : list Person) :
  parse_lines randomId headers lines n newPeople
  = (newPeople
       ++ imap (λ k line, zip_record {["id" := randomId (n + k)]} headers (cells line)) lines,
     n + length lines).
Proof.
  revert n newPeople.
  induction lines as [|line lines IH]; intros n newPeople; cbn [parse_lines].
  - cbn. by rewrite app_nil_r, Nat.add_0_r.
  - rewrite IH, parse_line_spec, imap_cons, <- app_assoc. cbn [app length].
    rewrite Nat.add_0_r, Nat.add_succ_r. do 2 f_equal. f_equal.
    apply imap_ext. intros k l _. cbn. by rewrite Nat.add_succ_r.
Qed.

(** With two lines or more, the import replaces the table by the records
    of the data lines and draws one id per data line. *)
Lemma handleBulkUpload_spec (text : string) (s : State.t) :
  2 ≤ length (Js.split Js.LF (Js.trim text)) →
  handleBulkUpload randomId text s
  = State.setPeople
      (import_records randomId (State.draws s) (Js.split Js.LF (Js.trim text)))
      (State.setDraws
         (State.draws s + length (tail (Js.split Js.LF (Js.trim text)))) s).
Proof.
  intros Hlen. unfold handleBulkUpload.
  destruct (Nat.ltb_spec (length (Js.split Js.LF (Js.trim text))) 2) as [?|_]; [lia|].
  by rewrite parse_lines_spec.
Qed.

(** An assignment changes the key it names and no other, and it takes
    effect unless the key is an unowned ["__proto__"]. *)
Lemma lookup_set_ne (key key' v : string) (o : Person) :
  key ≠ key' → JsObject.set key v o !! key' = o !! key'.
Proof.
  intros Hne. unfold JsObject.set.
  destruct (o !! key); [by apply lookup_insert_ne|].
  destruct (decide (key = "__proto__")); [done | by apply lookup_insert_ne].
Qed.

Lemma lookup_set_eq (key v : string) (o : Person) :
  key ≠ "__proto__" → JsObject.set key v o !! key = Some v.
Proof.
  intros Hne. unfold JsObject.set.
  destruct (o !! key); [apply lookup_insert_eq|].
  destruct (decide (key = "__proto__")); [done | apply lookup_insert_eq].
Qed.

(** Writing columns that are not named [key] leaves [key] as it was. *)
Lemma foldl_insert_other (key : string) (l : list (string * string)) (base : Person) :
  Forall (λ hv, hv.1 ≠ key) l →
  foldl (λ person hv, JsObject.set hv.1 hv.2 person) base l !! key = base !! key.
Proof.
  intros Hl. revert base. induction Hl as [|hv l Hhv Hl IH]; intros base; [done|].
  cbn. rewrite IH. by apply lookup_set_ne.
Qed.

Lemma zip_record_no_id (base : Person) (headers values : list string) :
  "id" ∉ headers →
  zip_record base headers values !! "id" = base !! "id".
Proof.
  intros Hid. unfold zip_record. apply foldl_insert_other.
  apply Forall_forall. intros [h v] Hin Heq.
  apply list_elem_of_filter in Hin as [_ Hin]. apply elem_of_zip_l in Hin.
  cbn in Heq. by subst h.
Qed.

Lemma zip_record_id_column (base : Person) (headers values : list string)
    (j : nat) (v : string) :
  id_column headers values j v →
  zip_record base headers values !! "id" = Some v.
Proof.
  intros (Hh & Hv & Hne & Hlater). unfold zip_record.
  assert (Hj : zip headers values !! j = Some ("id", v)).
  { apply lookup_zip_with_Some. by exists "id", v. }
  rewrite <- (take_drop_middle _ _ _ Hj), filter_app, filter_cons.
  cbn [snd]. destruct (decide (v ≠ "")) as [_|]; [|done].
  rewrite foldl_app. cbn [foldl fst snd].
  rewrite foldl_insert_other; [by apply lookup_set_eq|].
  apply Forall_forall. intros [h w] Hin Heq. cbn in Heq. subst h.
  apply list_elem_of_filter in Hin as [Hw Hin]. cbn in Hw.
  apply list_elem_of_lookup_1 in Hin as [i Hi].
  rewrite lookup_drop in Hi.
  apply lookup_zip_with_Some in Hi as (h' & w' & [= <- <-] & Hh' & Hw').
  apply Hw, (Hlater (S j + i)); [lia|done..].
Qed.

End ImportFacts.

Lemma import_records_lookup (randomId : nat → string) (n : nat) (lines : list string)
    (k : nat) (line : string) :
  tail lines !! k = Some line →
  import_records randomId n lines !! k
  = Some (zip_record {["id" := randomId (n + k)]}
            (cells (default "" (head lines))) (cells line)).
Proof. intros Hk. unfold import_records. by rewrite list_lookup_imap, Hk. Qed.

Lemma import_records_lookup_inv (randomId : nat → string) (n : nat) (lines : list string)
    (k : nat) (record : Person) :
  import_records randomId n lines !! k = Some record →
  ∃ line, tail lines !! k = Some line
          ∧ record = zip_record {["id" := randomId (n + k)]}
                       (cells (default "" (head lines))) (cells line).
Proof.
  unfold import_records. rewrite list_lookup_imap.
  destruct (tail lines !! k) as [line|]; [|done].
  intros [= <-]. by exists line.
Qed.

(** X24 (what the import builds).  For every text whose trimmed form has
    at least two lines, the attendee table is replaced by one record per
    data line: the first line, split on commas with each part trimmed,
    gives the keys; each later line is split, trimmed and zipped
    positionally against the keys, a column whose trimmed value is empty
    being skipped, a later column overwriting an earlier one of the same
    key, and a column named ["__proto__"] storing nothing.  The record of the
    [k]-th data line starts from the [k]-th id drawn, under the key ["id"];
    when no column is named ["id"] it keeps that id, and the ids of the
    table are pairwise distinct provided the drawn ids are.  The text
    ["Name,Role\nAda,Speaker\nLinus,Staff"] gives exactly the records
    [{Name: "Ada", Role: "Speaker"}] and [{Name: "Linus", Role: "Staff"}],
    each with the id drawn for it. *)
Theorem bulk_import (randomId : nat → string) (text : string) (s : State.t) :
  2 ≤ length (Js.split Js.LF (Js.trim text)) →
  State.people (handleBulkUpload randomId text s)
  = import_records randomId (State.draws s) (Js.split Js.LF (Js.trim text))
  ∧ length (State.people (handleBulkUpload randomId text s))
    = length (Js.split Js.LF (Js.trim text)) - 1
  ∧ ("id" ∉ cells (default "" (head (Js.split Js.LF (Js.trim text)))) →
     (∀ (k : nat) (record : Person),
        State.people (handleBulkUpload randomId text s) !! k = Some record →
        record !! "id" = Some (randomId (State.draws s + k)))
     ∧ ((∀ i j : nat, randomId i = randomId j → i = j) →
        NoDup (ids (State.people (handleBulkUpload randomId text s)))))
  ∧ State.people (handleBulkUpload randomId example_csv s)
    = [ <["Role" := "Speaker"]> (<["Name" := "Ada"]>
          {["id" := randomId (State.draws s)]});
        <["Role" := "Staff"]> (<["Name" := "Linus"]>
          {["id" := randomId (S (State.draws s))]}) ].
Proof.
  intros Hlen. rewrite (handleBulkUpload_spec _ _ _ Hlen). cbn [State.people State.setPeople].
  set (lines := Js.split Js.LF (Js.trim text)) in *.
  assert (Hid : "id" ∉ cells (default "" (head lines)) →
                ∀ (k : nat) (record : Person),
                  import_records randomId (State.draws s) lines !! k = Some record →
                  record !! "id" = Some (randomId (State.draws s + k))).
  { intros Hno k record Hk.
    apply import_records_lookup_inv in Hk as (line & _ & ->).
    rewrite zip_record_no_id by done. apply lookup_singleton_eq. }
  split; [done|]. split; [|split].
  - unfold import_records. by rewrite length_imap, length_tl.
  - intros Hno. split; [by apply Hid|].
    intros Hinj. apply NoDup_alt. intros i j x Hi Hj.
    unfold ids in Hi, Hj. change (map ?g ?l) with (g <$> l) in Hi, Hj.
    rewrite list_lookup_fmap in Hi, Hj.
    destruct (import_records randomId (State.draws s) lines !! i) as [ri|] eqn:Hri; [|done].
    destruct (import_records randomId (State.draws s) lines !! j) as [rj|] eqn:Hrj; [|done].
    cbn in Hi, Hj. rewrite (Hid Hno _ _ Hri) in Hi. rewrite (Hid Hno _ _ Hrj) in Hj.
    assert (Heq : State.draws s + i = State.draws s + j) by (apply Hinj; congruence).
    lia.
  - reflexivity.
Qed.

Lemma bulk_import_witness :
  2 ≤ length (Js.split Js.LF (Js.trim example_csv))
  ∧ State.people (handleBulkUpload fresh_ids example_csv initial_state)
    = import_records fresh_ids 0 (Js.split Js.LF (Js.trim example_csv)).
Proof.
  assert (Hlen : 2 ≤ length (Js.split Js.LF (Js.trim example_csv))).
  { vm_compute. lia. }
  split; [exact Hlen|].
  exact (proj1 (bulk_import fresh_ids example_csv initial_state Hlen)).
Defined.

(** C5, at inputs where the code departs from it.  The claim gives every
    imported record a freshly generated, distinct id and one key per
    non-empty column.  With a column named ["id"] the loop assigns the
    cell over the id it has just drawn, so the two data rows of the first
    text end with the same id ["7"], and neither id is a drawn one; the
    form's [handleAddPerson] writes the drawn id last and keeps it, even
    over an ["id"] entry.  With a column named ["__proto__"] the assignment
    reaches the setter of [Object.prototype] and stores nothing, so the
    record of the second text lacks that column. *)
Theorem bulk_import_id_collision :
  2 ≤ length (Js.split Js.LF (Js.trim example_csv_id))
  ∧ State.people (handleBulkUpload fresh_ids example_csv_id initial_state)
    = [ <["Name" := "Ada"]> {["id" := "7"]}; <["Name" := "Linus"]> {["id" := "7"]} ]
  ∧ ids (State.people (handleBulkUpload fresh_ids example_csv_id initial_state))
    = [Some "7"; Some "7"]
  ∧ ¬ NoDup (ids (State.people (handleBulkUpload fresh_ids example_csv_id initial_state)))
  ∧ ids (State.people
           (Data.app (handleAddPerson fresh_ids
                        (Data.mk (clearAll initial_state) "" false {["id" := "7"]}))))
    = [Some "r0"]
  ∧ State.people (handleBulkUpload fresh_ids example_csv_proto initial_state)
    = [ <["Name" := "Ada"]> {["id" := "r0"]} ].
Proof.
  split; [vm_compute; lia|]. split; [reflexivity|]. split; [reflexivity|].
  split; [|split; reflexivity].
  change (ids _) with [Some "7"; Some "7"].
  intros Hnd. apply NoDup_cons in Hnd as [Hnotin _].
  apply Hnotin, list_elem_of_singleton. reflexivity.
Qed.

(** C6 (malformed input).  When the trimmed text has fewer than two lines,
    a header line alone included, the import hands back the state it was
    given: the attendee table and every other cell are unchanged, no id is
    drawn, and the function returns normally. *)
Theorem bulk_import_noop (randomId : nat → string) (text : string) (s : State.t) :
  length (Js.split Js.LF (Js.trim text)) < 2 →
  handleBulkUpload randomId text s = s.
Proof.
  intros Hlen. unfold handleBulkUpload.
  by destruct (Nat.ltb_spec (length (Js.split Js.LF (Js.trim text))) 2) as [_|?]; [|lia].
Qed.

Lemma bulk_import_noop_witness :
  length (Js.split Js.LF (Js.trim example_csv_header_only)) < 2
  ∧ handleBulkUpload fresh_ids example_csv_header_only initial_state = initial_state.
Proof.
  assert (Hlen : length (Js.split Js.LF (Js.trim example_csv_header_only)) < 2).
  { vm_compute. lia. }
  split; [exact Hlen|].
  exact (bulk_import_noop fresh_ids example_csv_header_only initial_state Hlen).
Defined.

(** C10 (as amended).  When the header row has a column named ["id"], a
    data row gets as its id the trimmed value of the last such column that
    is non-empty in that row (with a single ["id"] column: the value of
    that column), not the id drawn for it; so two data rows that carry the
    same value there end with the same id. *)
Theorem id_column_overrides (randomId : nat → string) (text : string) (s : State.t) :
  2 ≤ length (Js.split Js.LF (Js.trim text)) →
  (∀ (k : nat) (line : string) (j : nat) (v : string),
     tail (Js.split Js.LF (Js.trim text)) !! k = Some line →
     id_column (cells (default "" (head (Js.split Js.LF (Js.trim text)))))
       (cells line) j v →
     ∃ record : Person,
       State.people (handleBulkUpload randomId text s) !! k = Some record
       ∧ record !! "id" = Some v)
  ∧ (∀ (k1 k2 : nat) (line1 line2 : string) (j1 j2 : nat) (v : string),
       tail (Js.split Js.LF (Js.trim text)) !! k1 = Some line1 →
       tail (Js.split Js.LF (Js.trim text)) !! k2 = Some line2 →
       id_column (cells (default "" (head (Js.split Js.LF (Js.trim text)))))
         (cells line1) j1 v →
       id_column (cells (default "" (head (Js.split Js.LF (Js.trim text)))))
         (cells line2) j2 v →
       ∃ record1 record2 : Person,
         State.people (handleBulkUpload randomId text s) !! k1 = Some record1
         ∧ State.people (handleBulkUpload randomId text s) !! k2 = Some record2
         ∧ record1 !! "id" = record2 !! "id").
Proof.
  intros Hlen. rewrite (handleBulkUpload_spec _ _ _ Hlen). cbn [State.people State.setPeople].
  set (lines := Js.split Js.LF (Js.trim text)) in *.
  assert (Hrow : ∀ (k : nat) (line : string) (j : nat) (v : string),
             tail lines !! k = Some line →
             id_column (cells (default "" (head lines))) (cells line) j v →
             ∃ record : Person,
               import_records randomId (State.draws s) lines !! k = Some record
               ∧ record !! "id" = Some v).
  { intros k line j v Hk Hcol. eexists. split; [by apply import_records_lookup|].
    by apply (zip_record_id_column _ _ _ j). }
  split; [exact Hrow|].
  intros k1 k2 line1 line2 j1 j2 v Hk1 Hk2 Hc1 Hc2.
  destruct (Hrow _ _ _ _ Hk1 Hc1) as (r1 & Hr1 & Hid1).
  destruct (Hrow _ _ _ _ Hk2 Hc2) as (r2 & Hr2 & Hid2).
  exists r1, r2. by rewrite Hid1, Hid2.
Qed.

Lemma id_column_overrides_witness :
  2 ≤ length (Js.split Js.LF (Js.trim example_csv_id))
  ∧ ∃ record1 record2 : Person,
      State.people (handleBulkUpload fresh_ids example_csv_id initial_state) !! 0
      = Some record1
      ∧ State.people (handleBulkUpload fresh_ids example_csv_id initial_state) !! 1
        = Some record2
      ∧ record1 !! "id" = record2 !! "id".
Proof.
  assert (Hlen : 2 ≤ length (Js.split Js.LF (Js.trim example_csv_id))).
  { vm_compute. lia. }
  split; [exact Hlen|].
  destruct (id_column_overrides fresh_ids example_csv_id initial_state Hlen) as (_ & H).
  apply (H 0 1 "7,Ada" "7,Linus" 0 0 "7"); try reflexivity.
  - repeat split; try reflexivity; [discriminate|].
    intros [|[|[|j']]] w Hlt Hh Hw; try lia; discriminate.
  - repeat split; try reflexivity; [discriminate|].
    intros [|[|[|j']]] w Hlt Hh Hw; try lia; discriminate.
Defined.

(** C10 as stated fails when two columns are named ["id"]: the first one
    has the non-empty value ["1"] in the row, yet the record's id is the
    value of the second. *)
Lemma id_column_overrides_counterexample :
  cells (default "" (head (Js.split Js.LF (Js.trim example_csv_two_ids)))) !! 0
  = Some "id"
  ∧ cells <$> tail (Js.split Js.LF (Js.trim example_csv_two_ids)) = [["1"; "2"]]
  ∧ ids (State.people (handleBulkUpload fresh_ids example_csv_two_ids initial_state))
    = [Some "2"].
Proof. repeat split; reflexivity. Qed.


(** * Further properties of the component *)

(** ** The merge engine, continued *)

(** X1.  On an empty attendee table [generatePDF] still builds a document:
    the single page the constructor opens, of the card's size, with nothing
    drawn on it. *)
Theorem generatePDF_empty_table (s : State.t) :
  State.people s = [] →
  JsPDF.pages (generatePDF s).2
  = [ JsPDF.mkPage ((CardConfig.width (State.config s) * 10)%float,
                    (CardConfig.height (State.config s) * 10)%float) [] ].
Proof. intros Hnil. unfold generatePDF. by rewrite Hnil. Qed.

Lemma generatePDF_empty_table_witness :
  JsPDF.pages (generatePDF (clearAll initial_state)).2
  = [ JsPDF.mkPage (140, 95)%float [] ].
Proof. exact (generatePDF_empty_table (clearAll initial_state) eq_refl). Defined.

(** X2.  Every page of an attendee has the card's size in millimetres and
    starts with the background of its side: the uploaded image, placed at
    the origin over the whole page, when there is one, else a white filled
    rectangle over the whole page.  Everything after the background is
    text. *)
Theorem page_layout (s : State.t) (i : nat) (person : Person) (side : Side) :
  State.people s !! i = Some person →
  side = Front ∨ has_back (State.templates s) (State.fields s) = true →
  ∃ (pg : JsPDF.page) (bg : JsPDF.item),
    JsPDF.pages (generatePDF s).2
      !! (pages_per_person (State.templates s) (State.fields s) * i + side_offset side)
    = Some pg
    ∧ JsPDF.size pg = ((CardConfig.width (State.config s) * 10)%float,
                       (CardConfig.height (State.config s) * 10)%float)
    ∧ JsPDF.items pg = bg :: map JsPDF.Text (JsPDF.runs pg)
    ∧ bg = match template_of (State.templates s) side with
           | Some (String c img) =>
               JsPDF.Image (String c img) "JPEG" 0 0
                 (CardConfig.width (State.config s) * 10)%float
                 (CardConfig.height (State.config s) * 10)%float
           | _ =>
               JsPDF.Rect 0 0
                 (CardConfig.width (State.config s) * 10)%float
                 (CardConfig.height (State.config s) * 10)%float
                 "F" (255, 255, 255)%float
           end.
Proof.
  intros Hi Hside.
  exists (side_page (State.config s) (State.fields s) side
            (template_of (State.templates s) side) person),
         (background_item (State.config s) (template_of (State.templates s) side)).
  split; [by apply generatePDF_side_page|]. split; [done|]. split.
  - rewrite runs_side_page. unfold side_page, side_items. cbn [JsPDF.items].
    f_equal. by rewrite map_map.
  - unfold background_item.
    by destruct (template_of (State.templates s) side) as [[|c img]|].
Qed.

Lemma page_layout_witness :
  ∃ (pg : JsPDF.page) (bg : JsPDF.item),
    JsPDF.pages (generatePDF example_state).2 !! 1 = Some pg
    ∧ JsPDF.size pg = (140, 95)%float
    ∧ JsPDF.items pg = bg :: map JsPDF.Text (JsPDF.runs pg)
    ∧ bg = JsPDF.Rect 0 0 140 95 "F" (255, 255, 255)%float.
Proof.
  apply (page_layout example_state 0 example_person Back); [reflexivity|].
  right. reflexivity.
Defined.

(** X3.  Each text run is drawn in the style of its own field: its font
    size, colour, font family and alignment, always in the normal font
    style.  The style a previous field set does not carry over. *)
Theorem run_styles (s : State.t) (i : nat) (person : Person) (side : Side) :
  State.people s !! i = Some person →
  side = Front ∨ has_back (State.templates s) (State.fields s) = true →
  ∃ pg : JsPDF.page,
    JsPDF.pages (generatePDF s).2
      !! (pages_per_person (State.templates s) (State.fields s) * i + side_offset side)
    = Some pg
    ∧ Forall2 styled_as (side_fields (State.fields s) side) (JsPDF.runs pg).
Proof.
  intros Hi Hside. eexists. split; [by apply generatePDF_side_page|].
  rewrite runs_side_page. apply Forall2_fmap_r, Forall_Forall2_diag, Forall_forall.
  intros f _. by repeat split.
Qed.

Lemma run_styles_witness :
  ∃ pg : JsPDF.page,
    JsPDF.pages (generatePDF initial_state).2 !! 0 = Some pg
    ∧ Forall2 styled_as initial_fields (JsPDF.runs pg).
Proof.
  apply (run_styles initial_state 0 (default ∅ (head SAMPLE_DATA)) Front);
    [reflexivity | by left].
Defined.

Lemma attendee_pages_flat_map (config : CardConfig.t) (templates : Templates.t)
    (fields : list Field.t) (people : list Person) (i : nat) (person : Person) :
  people !! i = Some person →
  attendee_pages (pages_per_person templates fields) i
    (flat_map (person_pages config templates fields) people)
  = person_pages config templates fields person.
Proof.
  unfold attendee_pages. revert i.
  induction people as [|q people IH]; intros i Hi; [done|].
  destruct i as [|i]; cbn in Hi; cbn [flat_map].
  - injection Hi as ->. rewrite Nat.mul_0_r. cbn [drop].
    apply take_app_length'. by rewrite length_person_pages.
  - rewrite drop_app_ge by (rewrite length_person_pages; lia).
    rewrite length_person_pages, <- (IH i Hi). do 2 f_equal. lia.
Qed.

Lemma side_fields_partition (fields : list Field.t) :
  side_fields fields Front ++ side_fields fields Back ≡ₚ fields.
Proof.
  unfold side_fields.
  rewrite (list_filter_iff (λ f, Field.side f = Back) (λ f, ¬ Field.side f = Front)).
  - apply filter_app_complement.
  - intros f. destruct (Field.side f); split; congruence.
Qed.

Lemma side_fields_no_back (templates : Templates.t) (fields : list Field.t) :
  has_back templates fields = false → side_fields fields Back = [].
Proof.
  intros [_ Hno]%has_back_false. unfold side_fields.
  induction Hno as [|f l Hf Hl IH]; [done|].
  by rewrite filter_cons_False.
Qed.

(** X4.  The pages of one attendee show every field of the design exactly
    once: the texts drawn on them are, up to order, the resolved texts
    ([person[f.name] || f.name]) of all the fields, whatever side each is
    on.  No field is dropped because of its side, and none is drawn twice. *)
Theorem every_field_once (s : State.t) (i : nat) (person : Person) :
  State.people s !! i = Some person →
  JsPDF.text <$>
    concat (JsPDF.runs <$>
      attendee_pages (pages_per_person (State.templates s) (State.fields s)) i
        (JsPDF.pages (generatePDF s).2))
  ≡ₚ display_text person <$> State.fields s.
Proof.
  intros Hi.
  assert (Hne : State.people s ≠ []) by (intros E; by rewrite E in Hi).
  rewrite generatePDF_pages, (attendee_pages_flat_map _ _ _ _ _ person) by done.
  transitivity (display_text person <$>
                  (side_fields (State.fields s) Front ++ side_fields (State.fields s) Back));
    [|by rewrite side_fields_partition].
  apply reflexive_eq. unfold person_pages.
  destruct (has_back (State.templates s) (State.fields s)) eqn:Hback;
    cbn [fmap list_fmap concat].
  - rewrite !runs_side_page, app_nil_r, !fmap_app.
    change (map ?g ?l) with (g <$> l). by rewrite <- !list_fmap_compose.
  - rewrite (side_fields_no_back _ _ Hback), !runs_side_page, !app_nil_r.
    change (map ?g ?l) with (g <$> l). by rewrite <- !list_fmap_compose.
Qed.

Lemma every_field_once_witness :
  JsPDF.text <$>
    concat (JsPDF.runs <$> attendee_pages 2 0 (JsPDF.pages (generatePDF example_state).2))
  ≡ₚ display_text example_person <$> State.fields example_state.
Proof. exact (every_field_once example_state 0 example_person eq_refl). Defined.

(** X5.  The print tab tells the truth about the file: when the download
    button is enabled and clicked, the file is named [event-id-cards.pdf],
    there is at least one card, and the document has one page per card
    when the tab says [Single Sided] and two when it says [Double Sided]. *)
Theorem print_tab_agrees (loading : bool) (s : State.t) (name : string) (doc : JsPDF.doc) :
  clickDownload loading s = Some (name, doc) →
  name = "event-id-cards.pdf"
  ∧ 0 < length (State.people s)
  ∧ (sides_label s = "Single Sided" ∨ sides_label s = "Double Sided")
  ∧ (sides_label s = "Single Sided" →
     length (JsPDF.pages doc) = length (State.people s))
  ∧ (sides_label s = "Double Sided" →
     length (JsPDF.pages doc) = 2 * length (State.people s)).
Proof.
  unfold clickDownload, download_disabled.
  destruct loading; [done|]. cbn [orb].
  destruct (Nat.eqb_spec (length (State.people s)) 0) as [|Hlen]; [done|].
  intros Hsome.
  assert (Hgen : generatePDF s = (name, doc)) by congruence. clear Hsome.
  assert (Hname : name = (generatePDF s).1) by (by rewrite Hgen).
  assert (Hdoc : doc = (generatePDF s).2) by (by rewrite Hgen).
  clear Hgen. subst name doc.
  assert (Hne : State.people s ≠ []) by (by destruct (State.people s)).
  assert (Hpages : length (JsPDF.pages (generatePDF s).2)
                   = pages_per_person (State.templates s) (State.fields s)
                     * length (State.people s)).
  { rewrite generatePDF_pages by done. apply length_flat_map_person_pages. }
  split; [done|]. split; [lia|].
  rewrite Hpages. unfold sides_label, pages_per_person, has_back.
  destruct (Js.truthy _ || _); repeat split; intros; (done || lia || auto).
Qed.

Lemma print_tab_agrees_witness :
  sides_label example_state = "Double Sided"
  ∧ length (JsPDF.pages (generatePDF example_state).2)
    = 2 * length (State.people example_state).
Proof.
  split; [reflexivity|].
  apply (print_tab_agrees false example_state "event-id-cards.pdf"
           (generatePDF example_state).2); reflexivity.
Defined.

(** X6.  Loading a back template turns every card into two pages, and
    loading a front template changes no page count: with a non-empty table,
    after a non-empty image is stored for the back the document has twice
    as many pages as there are attendees, and after one is stored for the
    front it has as many pages as before. *)
Theorem template_load_pages (side : Side) (result : string) (s : State.t) :
  State.people s ≠ [] →
  result ≠ "" →
  length (JsPDF.pages (generatePDF (onTemplateLoad Back result s)).2)
  = 2 * length (State.people s)
  ∧ length (JsPDF.pages (generatePDF (onTemplateLoad Front result s)).2)
    = length (JsPDF.pages (generatePDF s).2)
  ∧ template_of (State.templates (onTemplateLoad side result s)) side = Some result.
Proof.
  intros Hne Hres.
  rewrite !generatePDF_pages, !length_flat_map_person_pages by done.
  split; [|split].
  - unfold pages_per_person, has_back. cbn.
    by destruct result.
  - done.
  - by destruct side.
Qed.

Lemma template_load_pages_witness :
  length (JsPDF.pages (generatePDF (onTemplateLoad Back "data:image/jpeg;base64,AA"
                                      initial_state)).2) = 6.
Proof.
  refine (proj1 (template_load_pages Back "data:image/jpeg;base64,AA" initial_state _ _));
    discriminate.
Defined.

(** ** The field placement model, continued *)

Lemma filter_all {A : Type} (P : A → Prop) `{!∀ x, Decision (P x)} (l : list A) :
  Forall P l → filter P l = l.
Proof.
  induction 1 as [|x l Hx Hl IH]; [done|].
  by rewrite filter_cons_True, IH.
Qed.

Lemma field_ids_addField (randomId : nat → string) (s : State.t) :
  field_ids (addField randomId s) = field_ids s ++ [randomId (State.draws s)].
Proof. unfold field_ids, addField. cbn. by rewrite map_app. Qed.

Lemma field_ids_removeField (id : string) (s : State.t) :
  field_ids (removeField id s) = filter (λ i, i ≠ id) (field_ids s).
Proof.
  unfold field_ids. rewrite removeField_fields.
  induction (State.fields s) as [|f l IH]; [done|].
  cbn [map]. rewrite !filter_cons.
  destruct (decide (Field.id f ≠ id)); cbn [map]; by rewrite IH.
Qed.

Lemma field_ids_updateField (id : string) (updates : PartialField.t) (s : State.t) :
  keeps_id (UpdateField id updates) →
  field_ids (updateField id updates s) = field_ids s.
Proof.
  intros Hkeep. unfold field_ids, updateField. cbn [State.fields State.setFields].
  rewrite map_map. apply map_ext. intros f.
  destruct (decide (Field.id f = id)) as [Heq|]; [|done].
  unfold spread. cbn. destruct Hkeep as [-> | ->]; cbn; congruence.
Qed.

Lemma state_eta (s : State.t) : State.setFields (State.fields s) s = s.
Proof. by destruct s. Qed.

Lemma fields_absent_id (id : string) (s : State.t) :
  id ∉ field_ids s → Forall (λ f, Field.id f ≠ id) (State.fields s).
Proof.
  intros Habsent. apply Forall_forall. intros f Hf Heq. apply Habsent. unfold field_ids.
  change (map ?g ?l) with (g <$> l). apply list_elem_of_fmap. by exists f.
Qed.

Lemma removeField_absent (id : string) (s : State.t) :
  id ∉ field_ids s → State.selectedFieldId s ≠ Some id → removeField id s = s.
Proof.
  intros Habsent Hsel. unfold removeField.
  destruct (decide (State.selectedFieldId s = Some id)); [done|].
  rewrite filter_all by (by apply fields_absent_id). apply state_eta.
Qed.

(** X7.  Both operations are total on a missing id: when no field has the
    id, [updateField] hands back the state as it was, and [removeField]
    leaves the field list as it was (and the whole state, unless that id
    was the dangling selection). *)
Theorem field_ops_absent_id (id : string) (updates : PartialField.t) (s : State.t) :
  id ∉ field_ids s →
  updateField id updates s = s
  ∧ State.fields (removeField id s) = State.fields s
  ∧ (State.selectedFieldId s ≠ Some id → removeField id s = s).
Proof.
  intros Habsent.
  pose proof (fields_absent_id id s Habsent) as Hall.
  assert (Hmap : map (λ f, if decide (Field.id f = id) then spread f updates else f)
                   (State.fields s) = State.fields s).
  { induction Hall as [|f l Hf Hl IH]; [done|].
    cbn [map]. rewrite IH.
    destruct (decide (Field.id f = id)) as [Heq|]; [by destruct Hf | done]. }
  split; [|split].
  - unfold updateField. rewrite Hmap. apply state_eta.
  - rewrite removeField_fields. by apply filter_all.
  - by apply removeField_absent.
Qed.

Lemma field_ops_absent_id_witness :
  updateField "nope" example_rename initial_state = initial_state
  ∧ State.fields (removeField "nope" initial_state) = State.fields initial_state
  ∧ (State.selectedFieldId initial_state ≠ Some "nope" →
     removeField "nope" initial_state = initial_state).
Proof.
  apply field_ops_absent_id.
  unfold field_ids. cbn.
  intros Hin. repeat (apply elem_of_cons in Hin as [Hin|Hin]; [discriminate|]).
  by apply elem_of_nil in Hin.
Defined.

(** X8.  After [removeField id] no field has that id, and removing the
    same id a second time changes nothing. *)
Theorem removeField_idempotent (id : string) (s : State.t) :
  (id ∉ field_ids (removeField id s))
  ∧ removeField id (removeField id s) = removeField id s.
Proof.
  assert (Hgone : id ∉ field_ids (removeField id s)).
  { rewrite field_ids_removeField. intros [Hne _]%list_elem_of_filter. by apply Hne. }
  split; [done|].
  apply removeField_absent; [done|].
  rewrite removeField_selected.
  destruct (decide (State.selectedFieldId s = Some id)); done.
Qed.

(** X9.  Adding a field and removing it again gives back the field list:
    when the id drawn for the new field is not already in use,
    [removeField] of that id after [addField] restores the fields of the
    state before, with nothing selected. *)
Theorem addField_removeField (randomId : nat → string) (s : State.t) :
  randomId (State.draws s) ∉ field_ids s →
  State.fields (removeField (randomId (State.draws s)) (addField randomId s))
  = State.fields s
  ∧ State.selectedFieldId (removeField (randomId (State.draws s)) (addField randomId s))
    = None.
Proof.
  intros Hfresh. split.
  - rewrite removeField_fields. unfold addField.
    cbn [State.fields State.setFields State.setSelectedFieldId State.setDraws].
    rewrite filter_app, filter_cons_False, filter_nil, app_nil_r by (cbn; tauto).
    apply filter_all, Forall_forall. intros f Hf Heq. apply Hfresh.
    unfold field_ids. change (map ?g ?l) with (g <$> l).
    apply list_elem_of_fmap. by exists f.
  - rewrite removeField_selected. unfold addField. cbn.
    by destruct (decide _).
Qed.

Lemma addField_removeField_witness :
  State.fields (removeField "r0" (addField fresh_ids initial_state)) = initial_fields
  ∧ State.selectedFieldId (removeField "r0" (addField fresh_ids initial_state)) = None.
Proof.
  apply (addField_removeField fresh_ids initial_state).
  unfold field_ids. cbn.
  intros Hin. repeat (apply elem_of_cons in Hin as [Hin|Hin]; [discriminate|]).
  by apply elem_of_nil in Hin.
Defined.

(** ** The design tab *)

Lemma selectedField_Some (s : State.t) (f : Field.t) :
  selectedField s = Some f →
  f ∈ State.fields s ∧ State.selectedFieldId s = Some (Field.id f).
Proof.
  unfold selectedField. destruct (State.selectedFieldId s) as [sel|]; [|done].
  intros [Hin Hid]%find_some. apply bool_decide_eq_true in Hid.
  split; [by apply list_elem_of_In | by rewrite Hid].
Qed.

Lemma selection_ok_design_handle (randomId : nat → string) (Math_round : float → float)
    (ev : DesignEvent) (d : Design.t) :
  selection_ok (Design.app d) →
  selection_ok (Design.app (design_handle randomId Math_round ev d)).
Proof.
  intros Hok.
  destruct ev as [|i cx cy|cx cy canvas| |value|v|a|c| |side|v|v|side result];
    cbn [design_handle]; unfold on_app, on_selected; cbn [Design.app].
  - apply selection_ok_addField.
  - destruct (renderedFields (Design.app d) !! i) as [field|] eqn:Hfield; [|done].
    cbn. unfold selection_ok. cbn. exists field. split; [|done].
    apply list_elem_of_lookup_2 in Hfield.
    by apply list_elem_of_filter in Hfield as [_ ?].
  - unfold handleMouseMove.
    destruct (Design.dragState d) as [drag|]; [|done].
    destruct canvas as [clientWidth|]; [|done].
    cbn [Design.app]. apply selection_ok_updateField; [by left | done].
  - done.
  - destruct (selectedField (Design.app d)); [|done].
    apply selection_ok_updateField; [by left | done].
  - destruct (selectedField (Design.app d)); [|done].
    apply selection_ok_updateField; [by left | done].
  - destruct (selectedField (Design.app d)); [|done].
    apply selection_ok_updateField; [by left | done].
  - destruct (selectedField (Design.app d)); [|done].
    apply selection_ok_updateField; [by left | done].
  - destruct (selectedField (Design.app d)); [|done].
    by apply selection_ok_removeField.
  - done.
  - done.
  - done.
  - done.
Qed.

(** X10.  On the design tab the selection never dangles: starting from a
    state whose selection is null or names a field of the list, after any
    sequence of presses, drags, panel edits, removals, additions, side
    switches, dimension edits and template loads the selection is again
    null or the id of a field of the list; so the property panel is shown
    exactly when something is selected. *)
Theorem design_selection (randomId : nat → string) (Math_round : float → float)
    (evs : list DesignEvent) (d : Design.t) :
  selection_ok (Design.app d) →
  selection_ok (Design.app (design_run randomId Math_round evs d))
  ∧ (is_Some (selectedField (Design.app (design_run randomId Math_round evs d)))
     ↔ is_Some (State.selectedFieldId (Design.app (design_run randomId Math_round evs d)))).
Proof.
  intros Hok.
  assert (Hrun : selection_ok (Design.app (design_run randomId Math_round evs d))).
  { revert d Hok. induction evs as [|ev evs IH]; intros d Hok; [done|].
    cbn. apply IH. by apply selection_ok_design_handle. }
  split; [done|].
  set (s := Design.app (design_run randomId Math_round evs d)) in *.
  unfold selection_ok in Hrun. unfold selectedField.
  destruct (State.selectedFieldId s) as [sel|]; [|by split; intros [? ?]].
  destruct Hrun as (f & Hf & Hid). split; [by eexists|]. intros _.
  destruct (List.find (λ f, bool_decide (Field.id f = sel)) (State.fields s))
    as [g|] eqn:Hfind; [by eexists|].
  apply list_elem_of_In in Hf.
  pose proof (find_none _ _ Hfind f Hf) as Hno. cbn in Hno.
  apply bool_decide_eq_false in Hno. by destruct Hno.
Qed.

Lemma design_selection_witness :
  selection_ok
    (Design.app
       (design_run fresh_ids (λ v, v)
          [MouseDownField 0 10 10; MouseMove 20 20 (Some 700%float); MouseUp;
           EditName "Title"; ClickRemove]
          (Design.mk initial_state None))).
Proof.
  refine (proj1 (design_selection fresh_ids (λ v, v) _ (Design.mk initial_state None) _)).
  exact I.
Defined.

Lemma ids_fresh_addField (randomId : nat → string) (s : State.t) :
  (∀ i j : nat, randomId i = randomId j → i = j) →
  ids_fresh randomId s → ids_fresh randomId (addField randomId s).
Proof.
  intros Hinj (Hnd & Hfresh). unfold ids_fresh. rewrite field_ids_addField. split.
  - apply NoDup_app. split; [done|]. split; [|apply NoDup_singleton].
    intros x Hx Hx'. apply list_elem_of_singleton in Hx'. subst x.
    by apply (Hfresh (State.draws s)).
  - intros k Hk. cbn in Hk. apply not_elem_of_app. split; [apply Hfresh; lia|].
    intros Heq%list_elem_of_singleton. apply Hinj in Heq. lia.
Qed.

Lemma ids_fresh_updateField (randomId : nat → string) (id : string)
    (updates : PartialField.t) (s : State.t) :
  keeps_id (UpdateField id updates) →
  ids_fresh randomId s → ids_fresh randomId (updateField id updates s).
Proof.
  intros Hkeep Hfresh. unfold ids_fresh. by rewrite field_ids_updateField.
Qed.

Lemma ids_fresh_removeField (randomId : nat → string) (id : string) (s : State.t) :
  ids_fresh randomId s → ids_fresh randomId (removeField id s).
Proof.
  intros (Hnd & Hfresh). unfold ids_fresh. rewrite field_ids_removeField.
  split; [by apply NoDup_filter|].
  assert (Hdraws : State.draws (removeField id s) = State.draws s).
  { unfold removeField. by destruct (decide _). }
  rewrite Hdraws. intros k Hk [_ Hin]%list_elem_of_filter. by apply (Hfresh k).
Qed.

Lemma ids_fresh_design_handle (randomId : nat → string) (Math_round : float → float)
    (ev : DesignEvent) (d : Design.t) :
  (∀ i j : nat, randomId i = randomId j → i = j) →
  ids_fresh randomId (Design.app d) →
  ids_fresh randomId (Design.app (design_handle randomId Math_round ev d)).
Proof.
  intros Hinj Hfresh.
  destruct ev as [|i cx cy|cx cy canvas| |value|v|a|c| |side|v|v|side result];
    cbn [design_handle]; unfold on_app, on_selected; cbn [Design.app];
    try done.
  - by apply ids_fresh_addField.
  - by destruct (renderedFields (Design.app d) !! i).
  - unfold handleMouseMove.
    destruct (Design.dragState d) as [drag|]; [|done].
    destruct canvas as [clientWidth|]; [|done].
    cbn [Design.app]. apply ids_fresh_updateField; [by left | done].
  - destruct (selectedField (Design.app d)); [|done].
    apply ids_fresh_updateField; [by left | done].
  - destruct (selectedField (Design.app d)); [|done].
    apply ids_fresh_updateField; [by left | done].
  - destruct (selectedField (Design.app d)); [|done].
    apply ids_fresh_updateField; [by left | done].
  - destruct (selectedField (Design.app d)); [|done].
    apply ids_fresh_updateField; [by left | done].
  - destruct (selectedField (Design.app d)); [|done].
    by apply ids_fresh_removeField.
Qed.

(** X11.  Field ids stay pairwise distinct on the design tab as long as
    the random source does not repeat itself: if the ids drawn are all
    different, the field ids are distinct to begin with and none of them
    is an id still to be drawn, then after any sequence of design-tab
    events the field ids are still pairwise distinct. *)
Theorem design_unique_ids (randomId : nat → string) (Math_round : float → float)
    (evs : list DesignEvent) (d : Design.t) :
  (∀ i j : nat, randomId i = randomId j → i = j) →
  ids_fresh randomId (Design.app d) →
  NoDup (field_ids (Design.app (design_run randomId Math_round evs d))).
Proof.
  intros Hinj Hfresh.
  enough (Hrun : ids_fresh randomId (Design.app (design_run randomId Math_round evs d)))
    by apply Hrun.
  revert d Hfresh. induction evs as [|ev evs IH]; intros d Hfresh; [done|].
  cbn. apply IH. by apply ids_fresh_design_handle.
Qed.

Lemma fresh_ids_inj (i j : nat) : fresh_ids i = fresh_ids j → i = j.
Proof. unfold fresh_ids. intros H. injection H as H. by apply (inj pretty). Qed.

Lemma fresh_ids_initial : ids_fresh fresh_ids initial_state.
Proof.
  split.
  - unfold field_ids. cbn. apply NoDup_cons. split.
    + intros Hin. apply list_elem_of_singleton in Hin. discriminate.
    + apply NoDup_singleton.
  - intros k _ Hin. unfold field_ids in Hin. cbn in Hin.
    repeat (apply elem_of_cons in Hin as [Hin|Hin]; [discriminate|]).
    by apply elem_of_nil in Hin.
Qed.

Lemma design_unique_ids_witness :
  NoDup (field_ids
           (Design.app
              (design_run fresh_ids (λ v, v)
                 [ClickAddField; ClickAddField; EditName "Title"]
                 (Design.mk initial_state None)))).
Proof.
  apply (design_unique_ids fresh_ids (λ v, v) _ (Design.mk initial_state None)).
  - exact fresh_ids_inj.
  - exact fresh_ids_initial.
Defined.

(** X12.  With distinct field ids a panel edit touches one field only:
    renaming the selected field leaves every other field of the list
    exactly as it was, and the selected field differs in its name alone. *)
Theorem edit_selected_only (randomId : nat → string) (Math_round : float → float)
    (value : string) (d : Design.t) (f : Field.t) :
  NoDup (field_ids (Design.app d)) →
  selectedField (Design.app d) = Some f →
  ∀ (i : nat) (g : Field.t),
    State.fields (Design.app d) !! i = Some g →
    (g = f →
     State.fields (Design.app (design_handle randomId Math_round (EditName value) d)) !! i
     = Some (Field.mk (Field.id f) value (Field.x f) (Field.y f) (Field.fontSize f)
               (Field.color f) (Field.fontFamily f) (Field.align f) (Field.side f)))
    ∧ (g ≠ f →
       State.fields (Design.app (design_handle randomId Math_round (EditName value) d)) !! i
       = Some g).
Proof.
  intros Hnd Hsel i g Hg. cbn [design_handle]. unfold on_selected. rewrite Hsel.
  cbn [Design.app]. unfold updateField. cbn [State.fields State.setFields].
  change (map ?h ?l) with (h <$> l). rewrite list_lookup_fmap, Hg.
  cbn [fmap option_fmap option_map].
  apply selectedField_Some in Hsel as [Hf _].
  apply list_elem_of_lookup_1 in Hf as [j Hj].
  split.
  - intros ->. by destruct (decide (Field.id f = Field.id f)).
  - intros Hne. destruct (decide (Field.id g = Field.id f)) as [Hid|Hid]; [|done].
    destruct Hne.
    assert (i = j) as ->; [|congruence].
    apply (proj1 (NoDup_alt _) Hnd i j (Field.id f)); unfold field_ids;
      change (map ?h ?l) with (h <$> l); rewrite list_lookup_fmap.
    + by rewrite Hg, <- Hid.
    + by rewrite Hj.
Qed.

Lemma edit_selected_only_witness :
  State.fields
    (Design.app
       (design_handle fresh_ids (λ v, v) (EditName "Title")
          (Design.mk (State.setSelectedFieldId (Some "f2") initial_state) None))) !! 0
  = Some (Field.mk "f1" "Full Name" 70 40 24 "#000000" "helvetica" AlignCenter Front).
Proof.
  refine (proj2 (edit_selected_only fresh_ids (λ v, v) "Title"
            (Design.mk (State.setSelectedFieldId (Some "f2") initial_state) None)
            (Field.mk "f2" "Role" 70 55 16 "#2563EB" "helvetica" AlignCenter Front)
            _ eq_refl 0 _ eq_refl) _).
  - exact (proj1 fresh_ids_initial).
  - intros Heq. discriminate Heq.
Defined.

(** X13.  A drag moves a field and does nothing else.  A mouse move with
    no drag in progress, or with the canvas not attached, leaves the state
    as it is.  Otherwise the field list keeps its length and order: a field
    with the dragged id gets, from the position it had when the button
    went down, the rounded position under the pointer, and keeps its id,
    name, style and side; any other field is untouched; the selection, the
    drag state and the rest of the state are unchanged. *)
Theorem drag_moves_only_position (Math_round : float → float)
    (clientX clientY : float) (canvas : option float) (d : Design.t) :
  (Design.dragState d = None ∨ canvas = None →
   handleMouseMove Math_round clientX clientY canvas d = d)
  ∧ Design.dragState (handleMouseMove Math_round clientX clientY canvas d)
    = Design.dragState d
  ∧ State.setFields (State.fields (Design.app d))
      (Design.app (handleMouseMove Math_round clientX clientY canvas d))
    = Design.app d
  ∧ ∀ (i : nat) (f : Field.t),
      State.fields (Design.app d) !! i = Some f →
      ∃ f' : Field.t,
        State.fields (Design.app (handleMouseMove Math_round clientX clientY canvas d)) !! i
        = Some f'
        ∧ same_but_position f f'
        ∧ (∀ drag : DragState.t,
             Design.dragState d = Some drag → Field.id f ≠ DragState.id drag → f' = f)
        ∧ (∀ (drag : DragState.t) (clientWidth : float),
             Design.dragState d = Some drag → canvas = Some clientWidth →
             Field.id f = DragState.id drag →
             Field.x f'
             = Math_round
                 (DragState.initX drag
                  + (clientX - DragState.startX drag)
                    / (clientWidth / (CardConfig.width (State.config (Design.app d)) * 10)))%float
             ∧ Field.y f'
               = Math_round
                   (DragState.initY drag
                    + (clientY - DragState.startY drag)
                      / (clientWidth
                         / (CardConfig.width (State.config (Design.app d)) * 10)))%float).
Proof.
  unfold handleMouseMove.
  destruct (Design.dragState d) as [drag|] eqn:Hdrag.
  2:{ split; [done|]. split; [done|]. split; [apply state_eta|].
      intros i f Hf. exists f. repeat split; intros; done. }
  destruct canvas as [clientWidth|].
  2:{ split; [done|]. split; [done|]. split; [apply state_eta|].
      intros i f Hf. exists f. repeat split; intros; done. }
  split; [by intros [|]|]. split; [done|]. split.
  - cbn [Design.app]. unfold updateField. by destruct (Design.app d).
  - intros i f Hf. cbn [Design.app]. unfold updateField.
    cbn [State.fields State.setFields].
    change (map ?h ?l) with (h <$> l). rewrite list_lookup_fmap, Hf.
    cbn [fmap option_fmap option_map]. eexists. split; [reflexivity|].
    destruct (decide (Field.id f = DragState.id drag)) as [Hid|Hid].
    + split; [by repeat split|]. split.
      * intros drag' [= <-] Hne. by destruct Hne.
      * intros drag' cw [= <-] [= <-] _. by split.
    + split; [by repeat split|]. split; [done|].
      intros drag' cw [= <-] _ Heq. by destruct Hid.
Qed.

Lemma drag_moves_only_position_witness :
  handleMouseMove (λ v, v) 20 20 (Some 700%float) (Design.mk initial_state None)
  = Design.mk initial_state None.
Proof.
  refine (proj1 (drag_moves_only_position (λ v, v) 20 20 (Some 700%float)
                   (Design.mk initial_state None)) _).
  by left.
Defined.

(** ** The data tab *)

Lemma foldl_set_add (acc l : list string) :
  foldl set_add acc l = acc ++ filter (λ x, x ∉ acc) (array_from_set l).
Proof.
  unfold array_from_set. induction l as [|x l IH] using rev_ind.
  - cbn. by rewrite app_nil_r.
  - rewrite !foldl_snoc, IH. unfold set_add at 1 3.
    destruct (decide (x ∈ foldl set_add [] l)) as [Hin|Hnotin].
    + destruct (decide (x ∈ acc ++ filter (λ y, y ∉ acc) (foldl set_add [] l)))
        as [|Hno]; [done|].
      destruct Hno. apply elem_of_app.
      destruct (decide (x ∈ acc)); [by left|right].
      by apply list_elem_of_filter.
    + rewrite filter_app, filter_cons, filter_nil.
      destruct (decide (x ∈ acc ++ filter (λ y, y ∉ acc) (foldl set_add [] l)))
        as [Hin|Hno].
      * apply elem_of_app in Hin as [Hin|Hin].
        -- destruct (decide (x ∉ acc)) as [Hn|]; [by destruct Hn|].
           by rewrite app_nil_r.
        -- apply list_elem_of_filter in Hin as [_ Hin]. by destruct Hnotin.
      * destruct (decide (x ∉ acc)) as [|Hn].
        -- by rewrite app_assoc.
        -- destruct Hno. apply elem_of_app. left.
           by destruct (decide (x ∈ acc)); [|destruct Hn].
Qed.

Lemma array_from_set_cons (x : string) (l : list string) :
  array_from_set (x :: l) = x :: filter (λ y, y ≠ x) (array_from_set l).
Proof.
  unfold array_from_set at 1. cbn [foldl]. unfold set_add at 2.
  destruct (decide (x ∈ [])) as [Hin|_]; [by apply elem_of_nil in Hin|].
  rewrite foldl_set_add. cbn [app]. f_equal.
  apply list_filter_iff. intros y. by rewrite list_elem_of_singleton.
Qed.

Lemma array_from_set_elem_of (x : string) (l : list string) :
  x ∈ array_from_set l ↔ x ∈ l.
Proof.
  induction l as [|y l IH]; [done|].
  rewrite array_from_set_cons, !elem_of_cons, list_elem_of_filter, IH.
  destruct (decide (x = y)); tauto.
Qed.

Lemma array_from_set_NoDup (l : list string) : NoDup (array_from_set l).
Proof.
  induction l as [|y l IH]; [apply NoDup_nil_2|].
  rewrite array_from_set_cons. apply NoDup_cons. split.
  - intros [Hne _]%list_elem_of_filter. by apply Hne.
  - by apply NoDup_filter.
Qed.

(** X14.  The columns of the form and of the table are the field names,
    each once, in the order in which they first occur in the field list:
    the list has no repetition, holds exactly the names of the fields, and
    the name of the first field comes first, followed by the columns of the
    remaining fields without that name. *)
Theorem requiredFields_spec (fields : list Field.t) :
  NoDup (requiredFields fields)
  ∧ (∀ name : string,
       name ∈ requiredFields fields ↔ ∃ f, f ∈ fields ∧ Field.name f = name)
  ∧ (∀ (f : Field.t) (rest : list Field.t),
       requiredFields (f :: rest)
       = Field.name f :: filter (λ name, name ≠ Field.name f) (requiredFields rest)).
Proof.
  unfold requiredFields. split; [apply array_from_set_NoDup|]. split.
  - intros name. rewrite array_from_set_elem_of.
    change (map ?g ?l) with (g <$> l). rewrite list_elem_of_fmap.
    split; intros (f & H1 & H2); exists f; done.
  - intros f rest. cbn [map]. apply array_from_set_cons.
Qed.

(** X15.  A record entered through the form is appended with a drawn id
    and prints what was typed.  After [handleAddPerson] the table is the
    old one followed by one new record and the form is empty again; in the
    merge, a field whose name is not ["id"] resolves on the new record
    exactly as it would on the entries of the form, while a field named
    ["id"] resolves to the id drawn, not to what was typed under it. *)
Theorem handleAddPerson_prints (randomId : nat → string) (d : Data.t) :
  ∃ person : Person,
    State.people (Data.app (handleAddPerson randomId d))
    = State.people (Data.app d) ++ [person]
    ∧ Data.newPerson (handleAddPerson randomId d) = ∅
    ∧ person !! "id" = Some (randomId (State.draws (Data.app d)))
    ∧ (∀ f : Field.t,
         Field.name f ≠ "id" →
         display_text person f = display_text (Data.newPerson d) f)
    ∧ (∀ f : Field.t,
         Field.name f = "id" →
         display_text person f
         = Js.or_string (Some (randomId (State.draws (Data.app d)))) "id").
Proof.
  eexists. split; [reflexivity|]. split; [reflexivity|].
  split; [apply lookup_insert_eq|]. split.
  - intros f Hname. unfold display_text, JsObject.get. by rewrite lookup_insert_ne.
  - intros f Hname. unfold display_text, JsObject.get.
    rewrite Hname, lookup_insert_eq. cbn.
    by destruct (Js.truthy_string (randomId (State.draws (Data.app d)))).
Qed.

(** X16.  [deletePerson id] removes every record whose id is [id], all of
    them when several records share the id, and nothing else: the new
    table is a sublist of the old one, holds exactly the old records with
    another id, is shorter by the number of records with that id, and the
    rest of the state is unchanged. *)
Theorem deletePerson_spec (id : string) (s : State.t) :
  State.people (deletePerson id s) `sublist_of` State.people s
  ∧ (∀ p : Person,
       p ∈ State.people (deletePerson id s) ↔ p ∈ State.people s ∧ p !! "id" ≠ Some id)
  ∧ length (State.people (deletePerson id s))
    + length (filter (λ p : Person, p !! "id" = Some id) (State.people s))
    = length (State.people s)
  ∧ State.setPeople (State.people s) (deletePerson id s) = s.
Proof.
  unfold deletePerson. cbn [State.people State.setPeople].
  split; [apply sublist_filter|]. split; [|split].
  - intros p. rewrite list_elem_of_filter. tauto.
  - apply (length_filter_split (λ p : Person, p !! "id" = Some id)).
  - by destruct s.
Qed.

(** ** The bulk import, continued *)

Lemma bulk_import_noop_eq (randomId : nat → string) (text : string) (s : State.t) :
  length (import_lines text) < 2 → handleBulkUpload randomId text s = s.
Proof.
  unfold import_lines. intros Hlen. unfold handleBulkUpload.
  by destruct (Nat.ltb_spec (length (Js.split Js.LF (Js.trim text))) 2) as [_|?]; [|lia].
Qed.

Lemma lookup_set_Some (key key' v w : string) (o : Person) :
  JsObject.set key v o !! key' = Some w →
  o !! key' = Some w ∨ (key' = key ∧ w = v).
Proof.
  unfold JsObject.set. destruct (decide (key = key')) as [->|Hne].
  - destruct (o !! key') eqn:Ho.
    + rewrite lookup_insert_eq. intros [= ->]. by right.
    + destruct (decide (key' = "__proto__")).
      * rewrite Ho. discriminate.
      * rewrite lookup_insert_eq. intros [= ->]. by right.
  - intros Hw. left. revert Hw.
    destruct (o !! key); [|destruct (decide (key = "__proto__"))];
      by rewrite ?lookup_insert_ne by done.
Qed.

Lemma foldl_insert_lookup_Some (key v : string) (l : list (string * string))
    (base : Person) :
  foldl (λ person hv, JsObject.set hv.1 hv.2 person) base l !! key = Some v →
  base !! key = Some v ∨ (key, v) ∈ l.
Proof.
  revert base. induction l as [|[a b] l IH]; intros base; [by left|].
  cbn [foldl fst snd]. intros [Hbase|Hin]%IH.
  - apply lookup_set_Some in Hbase as [Hbase|[-> ->]]; [by left|].
    right. apply elem_of_cons. by left.
  - right. apply elem_of_cons. by right.
Qed.

Lemma zip_record_lookup_Some (base : Person) (headers values : list string)
    (key v : string) :
  zip_record base headers values !! key = Some v →
  base !! key = Some v
  ∨ ∃ j : nat, headers !! j = Some key ∧ values !! j = Some v ∧ v ≠ "".
Proof.
  unfold zip_record. intros [Hbase|Hin]%foldl_insert_lookup_Some; [by left|right].
  apply list_elem_of_filter in Hin as [Hne Hin]. cbn in Hne.
  apply list_elem_of_lookup_1 in Hin as [j Hj].
  apply lookup_zip_with_Some in Hj as (h & w & [= <- <-] & Hh & Hw).
  by exists j.
Qed.

Lemma zip_record_lookup_None (base : Person) (headers values : list string) (key : string) :
  base !! key = None →
  (∀ (j : nat) (v : string), headers !! j = Some key → values !! j = Some v → v = "") →
  zip_record base headers values !! key = None.
Proof.
  intros Hbase Hempty. unfold zip_record.
  rewrite foldl_insert_other; [done|].
  apply Forall_forall. intros [h w] Hin Heq. cbn in Heq. subst h.
  apply list_elem_of_filter in Hin as [Hw Hin]. cbn in Hw.
  apply list_elem_of_lookup_1 in Hin as [j Hj].
  apply lookup_zip_with_Some in Hj as (h' & w' & [= <- <-] & Hh' & Hw').
  by apply Hw, (Hempty j).
Qed.

Lemma zip_record_key_column (base : Person) (key : string) (headers values : list string)
    (j : nat) (v : string) :
  key ≠ "__proto__" →
  key_column key headers values j v →
  zip_record base headers values !! key = Some v.
Proof.
  intros Hkey (Hh & Hv & Hne & Hlater). unfold zip_record.
  assert (Hj : zip headers values !! j = Some (key, v)).
  { apply lookup_zip_with_Some. by exists key, v. }
  rewrite <- (take_drop_middle _ _ _ Hj), filter_app, filter_cons.
  cbn [snd]. destruct (decide (v ≠ "")) as [_|]; [|done].
  rewrite foldl_app. cbn [foldl fst snd].
  rewrite foldl_insert_other; [by apply lookup_set_eq|].
  apply Forall_forall. intros [h w] Hin Heq. cbn in Heq. subst h.
  apply list_elem_of_filter in Hin as [Hw Hin]. cbn in Hw.
  apply list_elem_of_lookup_1 in Hin as [i Hi].
  rewrite lookup_drop in Hi.
  apply lookup_zip_with_Some in Hi as (h' & w' & [= <- <-] & Hh' & Hw').
  apply Hw, (Hlater (S j + i)); [lia|done..].
Qed.


(** [trim] takes the white space off both ends and is idempotent. *)
Lemma chars_inj (s t : string) : chars s = chars t → s = t.
Proof.
  unfold chars. intros H.
  rewrite <- (String.string_of_list_ascii_of_string s),
          <- (String.string_of_list_ascii_of_string t). by rewrite H.
Qed.

Lemma chars_rev_app (s a : string) :
  chars (String.rev_app s a) = List.rev (chars s) ++ chars a.
Proof.
  revert a. induction s as [|c s IH]; intros a; [done|].
  cbn. rewrite IH. cbn. by rewrite <- app_assoc.
Qed.

Lemma chars_rev (s : string) : chars (String.rev s) = List.rev (chars s).
Proof. unfold String.rev. by rewrite chars_rev_app, app_nil_r. Qed.

Lemma chars_trimStart (s : string) : chars (Js.trimStart s) = drop_white (chars s).
Proof.
  induction s as [|c s IH]; [done|]. cbn.
  by destruct (Js.is_white_space c).
Qed.

Lemma chars_trim (s : string) :
  chars (Js.trim s) = List.rev (drop_white (List.rev (drop_white (chars s)))).
Proof.
  unfold Js.trim, Js.trimEnd.
  by rewrite chars_rev, chars_trimStart, chars_rev, chars_trimStart.
Qed.

Lemma drop_white_idemp (l : list ascii) : drop_white (drop_white l) = drop_white l.
Proof.
  induction l as [|c l IH]; [done|]. cbn.
  destruct (Js.is_white_space c) eqn:Hc; [done|]. cbn. by rewrite Hc.
Qed.

Lemma drop_white_snoc (l : list ascii) (c : ascii) :
  Js.is_white_space c = false → drop_white (l ++ [c]) = drop_white l ++ [c].
Proof.
  intros Hc. induction l as [|x l IH]; cbn; [by rewrite Hc|].
  by destruct (Js.is_white_space x).
Qed.

Lemma drop_white_trimmed_end (m : list ascii) :
  drop_white m = m →
  drop_white (List.rev (drop_white (List.rev m))) = List.rev (drop_white (List.rev m)).
Proof.
  destruct m as [|c m]; [done|]. cbn [drop_white].
  destruct (Js.is_white_space c) eqn:Hc.
  - intros Heq. exfalso.
    assert (Hlen : length (drop_white m) ≤ length m).
    { clear. induction m as [|x m IH]; cbn; [lia|].
      destruct (Js.is_white_space x); cbn; lia. }
    rewrite Heq in Hlen. cbn in Hlen. lia.
  - intros _. cbn [List.rev]. rewrite drop_white_snoc by done.
    rewrite rev_app_distr. cbn. by rewrite Hc.
Qed.

Lemma trim_idemp (s : string) : Js.trim (Js.trim s) = Js.trim s.
Proof.
  apply chars_inj. rewrite (chars_trim (Js.trim s)), chars_trim.
  set (m := drop_white (chars s)).
  rewrite (drop_white_trimmed_end m) by apply drop_white_idemp.
  by rewrite rev_involutive, drop_white_idemp.
Qed.

Lemma cells_trimmed (line : string) (j : nat) (v : string) :
  cells line !! j = Some v → Js.trim v = v.
Proof.
  unfold cells. change (map ?g ?l) with (g <$> l). rewrite list_lookup_fmap.
  destruct (Js.split Js.comma line !! j) as [w|]; [|done].
  intros [= <-]. apply trim_idemp.
Qed.

Lemma imported_people (randomId : nat → string) (text : string) (s : State.t) :
  2 ≤ length (import_lines text) →
  State.people (handleBulkUpload randomId text s)
  = import_records randomId (State.draws s) (import_lines text).
Proof. intros Hlen. by rewrite handleBulkUpload_spec. Qed.

(** X17.  Every attribute of an imported record comes from a filled cell:
    if the record of the [k]-th data row has a value under a key other
    than ["id"], then that key is the header of some column and the value
    is the non-empty cell of the row in that column, and neither carries
    white space at its ends (trimming them again changes nothing).  So a
    blank row gives a record with an id and nothing else, and a row shorter
    than the header row simply lacks the trailing keys. *)
Theorem imported_attributes (randomId : nat → string) (text : string) (s : State.t)
    (k : nat) (record : Person) (key v : string) :
  2 ≤ length (import_lines text) →
  State.people (handleBulkUpload randomId text s) !! k = Some record →
  record !! key = Some v →
  key ≠ "id" →
  ∃ (line : string) (j : nat),
    import_rows text !! k = Some line
    ∧ import_headers text !! j = Some key
    ∧ cells line !! j = Some v
    ∧ v ≠ ""
    ∧ Js.trim key = key
    ∧ Js.trim v = v.
Proof.
  intros Hlen Hk Hkey Hne. rewrite imported_people in Hk by done.
  apply import_records_lookup_inv in Hk as (line & Hline & ->).
  apply zip_record_lookup_Some in Hkey as [Hbase|(j & Hh & Hv & Hv')].
  - by rewrite lookup_singleton_ne in Hbase.
  - exists line, j. repeat split; try done.
    + exact (cells_trimmed _ j key Hh).
    + exact (cells_trimmed line j v Hv).
Qed.

Lemma imported_attributes_witness :
  ∃ (line : string) (j : nat),
    import_rows example_csv !! 1 = Some line
    ∧ import_headers example_csv !! j = Some "Role"
    ∧ cells line !! j = Some "Staff"
    ∧ "Staff" ≠ ""
    ∧ Js.trim "Role" = "Role"
    ∧ Js.trim "Staff" = "Staff".
Proof.
  refine (imported_attributes fresh_ids example_csv initial_state 1
            (<["Role" := "Staff"]> (<["Name" := "Linus"]> {["id" := "r1"]}))
            "Role" "Staff" _ eq_refl eq_refl _).
  - vm_compute. lia.
  - discriminate.
Defined.

Lemma zip_record_no_proto (base : Person) (headers values : list string) :
  base !! "__proto__" = None →
  zip_record base headers values !! "__proto__" = None.
Proof.
  unfold zip_record. generalize (filter (λ hv, hv.2 ≠ "") (zip headers values)).
  intros l. revert base. induction l as [|[a b] l IH]; intros base Hbase; [done|].
  cbn [foldl fst snd]. apply IH. unfold JsObject.set.
  destruct (decide (a = "__proto__")) as [->|Hne].
  - rewrite Hbase. by destruct (decide ("__proto__" = "__proto__")).
  - destruct (base !! a); [by rewrite lookup_insert_ne|].
    destruct (decide (a = "__proto__")); [done | by rewrite lookup_insert_ne].
Qed.

(** X18.  What an imported record prints.  For the record of the [k]-th
    data row and any field [f]:
    when the row has a non-empty cell under a column named like the field
    (the last such column deciding) and the name is not ["__proto__"], the
    field resolves to that cell;
    when the field is not named ["id"], its name is not a property of
    [Object.prototype] and the row has no non-empty cell under a column of
    that name, the field resolves to its own name;
    when the name is a property of [Object.prototype] and either it is
    ["__proto__"] (whose cell the assignment never stores) or the row has
    no non-empty cell under it, the field resolves to the inherited value,
    not to a string. *)
Theorem import_prints (randomId : nat → string) (text : string) (s : State.t)
    (k : nat) (line : string) (f : Field.t) :
  2 ≤ length (import_lines text) →
  import_rows text !! k = Some line →
  ∃ record : Person,
    State.people (handleBulkUpload randomId text s) !! k = Some record
    ∧ (∀ (j : nat) (v : string),
         Field.name f ≠ "__proto__" →
         key_column (Field.name f) (import_headers text) (cells line) j v →
         display_text record f = JsObject.Str v)
    ∧ (Field.name f ≠ "id" →
       Field.name f ∉ JsObject.prototype_keys →
       (∀ (j : nat) (v : string),
          import_headers text !! j = Some (Field.name f) →
          cells line !! j = Some v → v = "") →
       display_text record f = JsObject.Str (Field.name f))
    ∧ (Field.name f ∈ JsObject.prototype_keys →
       Field.name f = "__proto__"
       ∨ (∀ (j : nat) (v : string),
            import_headers text !! j = Some (Field.name f) →
            cells line !! j = Some v → v = "") →
       display_text record f = JsObject.Inherited (Field.name f)).
Proof.
  intros Hlen Hline. rewrite imported_people by done.
  eexists. split; [by apply import_records_lookup|]. split; [|split].
  - intros j v Hname Hcol. unfold display_text, JsObject.get.
    rewrite (zip_record_key_column _ _ _ _ j v Hname Hcol).
    destruct Hcol as (_ & _ & Hne & _). by destruct v.
  - intros Hname Hproto Hempty. unfold display_text, JsObject.get.
    rewrite zip_record_lookup_None; [|by apply lookup_singleton_ne|done].
    by destruct (decide (Field.name f ∈ JsObject.prototype_keys)).
  - intros Hproto Hcase. unfold display_text, JsObject.get.
    assert (Hid : Field.name f ≠ "id").
    { intros Heq. rewrite Heq in Hproto. unfold JsObject.prototype_keys in Hproto.
      repeat (apply elem_of_cons in Hproto as [Hproto|Hproto]; [discriminate|]).
      by apply elem_of_nil in Hproto. }
    assert (Hnone : zip_record {["id" := randomId (State.draws s + k)]}
                      (cells (default "" (head (import_lines text)))) (cells line)
                    !! Field.name f = None).
    { destruct Hcase as [Heq|Hempty].
      - rewrite Heq. by apply zip_record_no_proto.
      - apply zip_record_lookup_None; [by apply lookup_singleton_ne|done]. }
    rewrite Hnone.
    by destruct (decide (Field.name f ∈ JsObject.prototype_keys)).
Qed.

Lemma import_prints_witness :
  ∃ record : Person,
    State.people (handleBulkUpload fresh_ids example_csv initial_state) !! 0 = Some record
    ∧ display_text record
        (Field.mk "f2" "Role" 70 55 16 "#2563EB" "helvetica" AlignCenter Front)
      = "Speaker".
Proof.
  assert (Hlen : 2 ≤ length (import_lines example_csv)) by (vm_compute; lia).
  destruct (import_prints fresh_ids example_csv initial_state 0 "Ada,Speaker"
              (Field.mk "f2" "Role" 70 55 16 "#2563EB" "helvetica" AlignCenter Front)
              Hlen eq_refl) as (record & Hrecord & Hcell & _).
  exists record. split; [exact Hrecord|].
  apply (Hcell 1); [discriminate|].
  repeat split; try reflexivity; [discriminate|].
  intros [|[|[|j']]] w Hlt Hh Hw; try lia; discriminate.
Defined.

Lemma delete_set (key a b : string) (o o' : Person) :
  delete key o = delete key o' →
  delete key (JsObject.set a b o) = delete key (JsObject.set a b o').
Proof.
  intros Heq. unfold JsObject.set. destruct (decide (key = a)) as [->|Hne].
  - destruct (o !! a), (o' !! a); try destruct (decide (a = "__proto__"));
      by rewrite ?delete_insert_eq.
  - assert (Ha : o !! a = o' !! a).
    { rewrite <- (lookup_delete_ne o key a), <- (lookup_delete_ne o' key a) by done.
      by rewrite Heq. }
    rewrite <- Ha.
    destruct (o !! a); [|destruct (decide (a = "__proto__"))];
      by rewrite ?delete_insert_ne, ?Heq by done.
Qed.

Lemma delete_foldl_insert (key : string) (l : list (string * string)) (base base' : Person) :
  delete key base = delete key base' →
  delete key (foldl (λ person hv, JsObject.set hv.1 hv.2 person) base l)
  = delete key (foldl (λ person hv, JsObject.set hv.1 hv.2 person) base' l).
Proof.
  revert base base'. induction l as [|[a b] l IH]; intros base base' Heq; [done|].
  cbn [foldl fst snd]. by apply IH, delete_set.
Qed.

(** X19.  The import replaces, it does not accumulate, and it touches only
    the table.  Whatever the text, every cell of the state other than the
    table (and the count of ids drawn) is left as it was; and importing
    the same text a second time gives a table of the same length whose
    records agree with those of the first import on every key but
    ["id"]. *)
Theorem reimport (randomId : nat → string) (text : string) (s : State.t) :
  State.setDraws (State.draws s)
    (State.setPeople (State.people s) (handleBulkUpload randomId text s)) = s
  ∧ length (State.people (handleBulkUpload randomId text
                            (handleBulkUpload randomId text s)))
    = length (State.people (handleBulkUpload randomId text s))
  ∧ ∀ (k : nat) (record1 record2 : Person),
      State.people (handleBulkUpload randomId text s) !! k = Some record1 →
      State.people (handleBulkUpload randomId text (handleBulkUpload randomId text s)) !! k
      = Some record2 →
      delete "id" record1 = delete "id" record2.
Proof.
  destruct (decide (length (import_lines text) < 2)) as [Hlt|Hge].
  - rewrite !(bulk_import_noop_eq randomId text) by done.
    split; [by destruct s|]. split; [done|]. congruence.
  - assert (Hlen : 2 ≤ length (import_lines text)) by lia.
    split; [|split].
    + rewrite handleBulkUpload_spec by done. by destruct s.
    + rewrite !imported_people by done. unfold import_records.
      by rewrite !length_imap.
    + intros k r1 r2. rewrite !imported_people by done.
      intros (line1 & Hl1 & ->)%import_records_lookup_inv
             (line2 & Hl2 & ->)%import_records_lookup_inv.
      assert (line2 = line1) as -> by congruence.
      unfold zip_record. apply delete_foldl_insert.
      by rewrite !delete_singleton_eq.
Qed.


(** X20.  Cutting a text at a separator loses nothing: no piece of
    [s.split(sep)] contains the separator, there is always at least one
    piece, and the pieces joined with the separator give back the text.
    So the lines of an import are exactly the trimmed text cut at its line
    feeds, and the cells of a line exactly the line cut at its commas. *)
Theorem split_join (sep : ascii) (s : string) :
  join sep (Js.split sep s) = s
  ∧ Js.split sep s ≠ []
  ∧ Forall (λ piece, occurrences sep piece = 0) (Js.split sep s).
Proof.
  induction s as [|c s (Hjoin & Hne & Hall)]; [by repeat constructor|].
  cbn [Js.split]. destruct (decide (c = sep)) as [->|Hc].
  - split; [|split; [done|]].
    + destruct (Js.split sep s) as [|piece pieces] eqn:Hsplit; [done|].
      cbn [join]. cbn. by rewrite <- Hjoin.
    + by constructor.
  - destruct (Js.split sep s) as [|piece pieces] eqn:Hsplit; [done|].
    split; [|split; [done|]].
    + rewrite <- Hjoin. by destruct pieces.
    + apply Forall_cons in Hall as [Hpiece Hall]. constructor; [|done].
      cbn. by destruct (decide (c = sep)).
Qed.

Lemma person_pages_dimensions (config config' : CardConfig.t) (templates : Templates.t)
    (fields : list Field.t) (person : Person) :
  CardConfig.width config' = CardConfig.width config →
  CardConfig.height config' = CardConfig.height config →
  person_pages config' templates fields person = person_pages config templates fields person.
Proof.
  destruct config as [w h dpi], config' as [w' h' dpi']. cbn. by intros -> ->.
Qed.

(** X21.  A card does not depend on the rest of the table.  If two merge
    runs share the card dimensions, the templates and the field list, an
    attendee record that stands at position [i] of one table and at
    position [j] of the other gets the very same pages in both documents:
    no text, style or background of another attendee carries over. *)
Theorem card_independent (s s' : State.t) (i j : nat) (person : Person) :
  State.people s !! i = Some person →
  State.people s' !! j = Some person →
  CardConfig.width (State.config s') = CardConfig.width (State.config s) →
  CardConfig.height (State.config s') = CardConfig.height (State.config s) →
  State.templates s' = State.templates s →
  State.fields s' = State.fields s →
  attendee_pages (pages_per_person (State.templates s') (State.fields s')) j
    (JsPDF.pages (generatePDF s').2)
  = attendee_pages (pages_per_person (State.templates s) (State.fields s)) i
      (JsPDF.pages (generatePDF s).2).
Proof.
  intros Hi Hj Hw Hh Ht Hf.
  assert (Hne : State.people s ≠ []) by (intros E; by rewrite E in Hi).
  assert (Hne' : State.people s' ≠ []) by (intros E; by rewrite E in Hj).
  rewrite !generatePDF_pages by done.
  rewrite (attendee_pages_flat_map _ _ _ _ _ person Hi),
          (attendee_pages_flat_map _ _ _ _ _ person Hj).
  rewrite Ht, Hf. by apply person_pages_dimensions.
Qed.

Lemma card_independent_witness :
  attendee_pages 1 0
    (JsPDF.pages (generatePDF (deletePerson "1" (deletePerson "2" initial_state))).2)
  = attendee_pages 1 2 (JsPDF.pages (generatePDF initial_state).2).
Proof.
  exact (card_independent initial_state (deletePerson "1" (deletePerson "2" initial_state))
           2 0 _ eq_refl eq_refl eq_refl eq_refl eq_refl eq_refl).
Defined.

(** X22.  A new field is at once on the canvas and in the property panel:
    when the id drawn for it is not already in use, after [addField] the
    selected field is the new one, it is among the fields drawn on the
    canvas, it sits at five times the card's width and height (the centre,
    in millimetres) on the active side, and the fields that were there
    before are unchanged in front of it. *)
Theorem addField_shows (randomId : nat → string) (s : State.t) :
  randomId (State.draws s) ∉ field_ids s →
  ∃ newField : Field.t,
    State.fields (addField randomId s) = State.fields s ++ [newField]
    ∧ selectedField (addField randomId s) = Some newField
    ∧ newField ∈ renderedFields (addField randomId s)
    ∧ Field.x newField = (CardConfig.width (State.config s) * 5)%float
    ∧ Field.y newField = (CardConfig.height (State.config s) * 5)%float
    ∧ Field.side newField = State.activeSide s.
Proof.
  intros Hfresh. eexists. split; [reflexivity|]. split; [|split; [|done]].
  - unfold selectedField, addField. cbn.
    pose proof (fields_absent_id _ _ Hfresh) as Hall.
    induction Hall as [|f l Hf Hl IH]; cbn.
    + by rewrite bool_decide_eq_true_2.
    + by rewrite bool_decide_eq_false_2.
  - unfold renderedFields, addField. cbn.
    apply list_elem_of_filter. split; [done|].
    apply elem_of_app. right. by apply list_elem_of_singleton.
Qed.

Lemma addField_shows_witness :
  ∃ newField : Field.t,
    State.fields (addField fresh_ids initial_state) = initial_fields ++ [newField]
    ∧ selectedField (addField fresh_ids initial_state) = Some newField
    ∧ newField ∈ renderedFields (addField fresh_ids initial_state)
    ∧ Field.x newField = 70%float
    ∧ Field.y newField = 47.5%float
    ∧ Field.side newField = Front.
Proof.
  apply (addField_shows fresh_ids initial_state).
  exact (proj2 fresh_ids_initial 0 (Nat.le_0_l 0)).
Defined.
